(** * Qyvr: pattern-addressed hook dispatch

    A shallow embedding of the two implementations of the Qyvr hook
    dispatcher: the functional one of [Qyvr.mjs] ([Qyvent], [addEvent],
    [delEvent], [addHook], [fire], [methodHook], [propertyHook]) and the
    class-based one ([Qyvent.filter], [Qyvr.has], [Qyvr.fire]; its
    [add], [del], [hook], [method] and [property] are [addEvent],
    [delEvent], [addHook], [methodHook] and [propertyHook]).

    JavaScript strings are modelled as [string], arrays as [list], the
    [Map] of namespaces as a [gmap], [undefined] results of [shift],
    [pop] and property reads as [None], object identity (used by
    [indexOf(hookObj)] and by the closures returned from [hook]) as
    references allocated from a counter of the store. A callback is a
    function of the host state, the context object and the arguments;
    what [await] makes of its result is an [Outcome].

    Of the proxy of [Qyvr.mjs] the [get] trap is modelled. Not modelled:
    its [apply] trap, [QyvrProxy], [Qyvr] and [qyvrPlugin], which build
    proxy objects and install core hooks that act on the map of
    namespaces itself; the [console.log] calls; callbacks that call back
    into the dispatcher or that change the context object after they
    have settled. *)

From Stdlib Require Import ZArith String Ascii List Lia Sorted Permutation.
From stdpp Require Import gmap strings list fin_maps.

Local Open Scope string_scope.
Local Open Scope list_scope.
Local Open Scope Z_scope.

(** ** JavaScript strings and arrays *)

Module Js.

(** [s.split('.')]: the segments between dots; never empty. *)
Fixpoint split (s : string) : list string :=
  match s with
  | EmptyString => [EmptyString]
  | String c s' =>
      if Ascii.eqb c "."%char then EmptyString :: split s'
      else match split s' with
           | seg :: segs => String c seg :: segs
           | [] => [String c EmptyString]
           end
  end.

(** [a.join('.')]. *)
Fixpoint join (a : list string) : string :=
  match a with
  | [] => EmptyString
  | [x] => x
  | x :: rest => x +:+ "." +:+ join rest
  end.

(** [s.split('.', 1)]: at most one segment is kept. *)
Definition split1 (s : string) : list string := take 1 (split s).

(** [a.shift()]: the first element ([None] for [undefined]) and the
    array that is left. *)
Definition shift {A} (a : list A) : option A * list A :=
  match a with
  | [] => (None, [])
  | x :: rest => (Some x, rest)
  end.

(** [a.pop()]: the last element ([None] for [undefined]) and the array
    that is left. *)
Definition pop {A} (a : list A) : option A * list A :=
  (last a, removelast a).

(** [s.endsWith('*')]. *)
Fixpoint endsWith_star (s : string) : bool :=
  match s with
  | EmptyString => false
  | String c EmptyString => Ascii.eqb c "*"%char
  | String _ s' => endsWith_star s'
  end.

(** [s.slice(0, -1)]: all but the last character. *)
Fixpoint slice_0_m1 (s : string) : string :=
  match s with
  | EmptyString => EmptyString
  | String _ EmptyString => EmptyString
  | String c s' => String c (slice_0_m1 s')
  end.

(** [a.findIndex(p)]: the index of the first element satisfying [p],
    or [-1]. *)
Fixpoint findIndex_from {A} (p : A -> bool) (a : list A) (i : Z) : Z :=
  match a with
  | [] => -1
  | x :: rest => if p x then i else findIndex_from p rest (i + 1)
  end.

Definition findIndex {A} (p : A -> bool) (a : list A) : Z :=
  findIndex_from p a 0.

(** [a.indexOf(x)] on an array of strings, where the searched value may
    be [undefined]. *)
Definition indexOf (a : list string) (x : option string) : Z :=
  findIndex (fun y => bool_decide (x = Some y)) a.

(** [a.every((part, index) => p(part, index))]. *)
Fixpoint every_from {A} (p : A -> nat -> bool) (a : list A) (i : nat) : bool :=
  match a with
  | [] => true
  | x :: rest => p x i && every_from p rest (S i)
  end.

Definition every {A} (p : A -> nat -> bool) (a : list A) : bool :=
  every_from p a 0%nat.

(** [a.splice(start)] with a single argument: everything from [start]
    on is removed; a negative [start] counts from the end. The array
    that is left is returned. *)
Definition splice {A} (a : list A) (start : Z) : list A :=
  let len := Z.of_nat (length a) in
  let from := if start <? 0 then Z.max (len + start) 0 else Z.min start len in
  take (Z.to_nat from) a.

(** [[...new Set(a)]]: the elements are added one by one, an element
    already present is not added again, and the set is read back in
    insertion order. *)
Definition Set_add (acc : list string) (x : string) : list string :=
  if bool_decide (x ∈ acc) then acc else acc ++ [x].

Definition Set_of (a : list string) : list string :=
  fold_left Set_add a [].

(** [a.sort(cmp)]: the sort is stable; with a comparator that is the
    difference of two keys the result is determined, and is computed
    here by inserting each element behind the elements that do not
    compare greater. *)
Fixpoint sort_insert {A} (cmp : A -> A -> Z) (x : A) (a : list A) : list A :=
  match a with
  | [] => [x]
  | y :: rest =>
      if cmp y x <=? 0 then y :: sort_insert cmp x rest else x :: y :: rest
  end.

Definition sort {A} (cmp : A -> A -> Z) (a : list A) : list A :=
  fold_left (fun acc x => sort_insert cmp x acc) a [].

End Js.

(** ** Values *)

(** The JavaScript values that callbacks receive, return and throw. An
    error object carries its name and its [cause]. *)
Inductive value : Type :=
  | VUndef
  | VNull
  | VBool (b : bool)
  | VNum (n : Z)
  | VStr (s : string)
  | VError (name : string) (cause : value).

#[global] Instance value_eq_dec : EqDecision value.
Proof. solve_decision. Defined.

(** Truthiness, as tested by [if(ctx.stopped)]. *)
Definition truthy (v : value) : bool :=
  match v with
  | VUndef | VNull => false
  | VBool b => b
  | VNum n => negb (n =? 0)
  | VStr s => negb (String.eqb s "")
  | VError _ _ => true
  end.

(** The error raised by reading a property of [undefined]. *)
Definition TypeError : value := VError "TypeError" VUndef.

(** Synchronous results: a value or a thrown exception. *)
Inductive Result (A : Type) : Type :=
  | Ok (a : A)
  | Throw (e : value).
Arguments Ok {A} a.
Arguments Throw {A} e.

(** ** Execution context, hooks and namespaces *)

Section Qyvr.

(** The state of the host program that callbacks read and write (the
    variables their closures capture). Callbacks that re-enter the
    dispatcher are not modelled. *)
Context {World : Type}.

(** The object [ctx] built by [fire]:
    [{ ...event.ctx, args, return: undefined, stop() {...} }]. The
    properties copied from the shared context are kept in [c_shared];
    [c_return] and [c_stopped] are the properties [return] and
    [stopped]. *)
Record Ctx : Type := mkCtx {
  c_shared : gmap string value;
  c_args : list value;
  c_return : value;
  c_stopped : value
}.

(** [stop() { ctx.stopped = true }] *)
Definition ctx_stop (c : Ctx) : Ctx :=
  mkCtx (c_shared c) (c_args c) (c_return c) (VBool true).

(** [ctx.return = result] *)
Definition ctx_set_return (result : value) (c : Ctx) : Ctx :=
  mkCtx (c_shared c) (c_args c) result (c_stopped c).

(** What [await Promise.resolve(hook.cb.call(ctx, ...args))] comes to:
    the callback returned a value or a promise that fulfilled, it threw
    or its promise rejected, or its promise never settles. The context
    and the host state are as the callback left them. *)
Inductive Outcome : Type :=
  | Fulfilled (result : value) (c : Ctx) (w : World)
  | Failed (cause : value) (c : Ctx) (w : World)
  | Hangs.

Definition Callback : Type := World -> Ctx -> list value -> Outcome.

(** [hookObj = { id, name, action, cb, phase }]; [h_ref] is the identity
    of the object. *)
Record Hook : Type := mkHook {
  h_ref : nat;
  h_id : option string;
  h_name : list string;
  h_action : option string;
  h_cb : Callback;
  h_phase : option string
}.

(** An instance of the class [Qyvent]. [ev_main] is [None] while the
    property [main] has not been assigned. *)
Record Qyvent : Type := mkQyvent {
  ev_id : string;
  ev_ctx : gmap string value;
  ev_phases : list string;
  ev_main : option string;
  ev_hooks : list Hook
}.

(** The callback of [phases.map] in the constructor, which assigns
    [this.main] as a side effect: the phases are mapped from left to
    right and the property is threaded through. *)
Fixpoint map_phases (phases : list string) (main : option string)
  : list string * option string :=
  match phases with
  | [] => ([], main)
  | phase :: rest =>
      if Js.endsWith_star phase then
        let m := Js.slice_0_m1 phase in
        let '(ps, main') := map_phases rest (Some m) in
        (m :: ps, main')
      else
        let '(ps, main') := map_phases rest main in
        (phase :: ps, main')
  end.

(** [constructor(id, phases = ['main*'], ctx = {})]; an argument that is
    [undefined] is [None]. *)
Definition Qyvent_new (id : string) (phases : option (list string))
    (ctx : option (gmap string value)) : Qyvent :=
  let '(ps, main) := map_phases (default ["main*"] phases) None in
  mkQyvent id (default ∅ ctx) ps main [].

(** The comparator of [hook]:
    [(a, b) => this.phases.indexOf(a.phase) - this.phases.indexOf(b.phase)] *)
Definition phase_index (phases : list string) (h : Hook) : Z :=
  Js.indexOf phases (h_phase h).

Definition phase_cmp (phases : list string) (a b : Hook) : Z :=
  phase_index phases a - phase_index phases b.

(** The first three lines of [hook], [filter] and [fire]:
    [name = pattern.split('.'), id = name.shift(), action = name.pop()]. *)
Definition parse (pattern : string) : option string * list string * option string :=
  let '(id, name) := Js.shift (Js.split pattern) in
  let '(action, name) := Js.pop name in
  (id, name, action).

(** [hook(pattern, cb, phase = this.main)]. [ref] is the identity of the
    new [hookObj]. The namespace after the call and the new hook are
    returned; the closure that [hook] returns is [Qyvent_unhook] of
    that hook. *)
Definition Qyvent_hook (ref : nat) (pattern : string) (cb : Callback)
    (phase : option string) (ev : Qyvent) : Qyvent * Hook :=
  let phase := match phase with Some p => Some p | None => ev_main ev end in
  let '(id, name, action) := parse pattern in
  let hookObj := mkHook ref id name action cb phase in
  let hooks := ev_hooks ev ++ [hookObj] in
  let hooks := Js.sort (phase_cmp (ev_phases ev)) hooks in
  (mkQyvent (ev_id ev) (ev_ctx ev) (ev_phases ev) (ev_main ev) hooks, hookObj).

(** [this.hooks.indexOf(hookObj)]: objects are compared by identity. *)
Definition hooks_indexOf (hooks : list Hook) (ref : nat) : Z :=
  Js.findIndex (fun h => Nat.eqb (h_ref h) ref) hooks.

(** The closure returned by [hook]:
    [() => this.hooks.splice(this.hooks.indexOf(hookObj))] *)
Definition Qyvent_unhook (ref : nat) (ev : Qyvent) : Qyvent :=
  mkQyvent (ev_id ev) (ev_ctx ev) (ev_phases ev) (ev_main ev)
    (Js.splice (ev_hooks ev) (hooks_indexOf (ev_hooks ev) ref)).

(** The predicate of [findIndex] in both versions of [has]:
    [id === hook.id && action == hook.action
     && pattern.join('.') === hook.name.join('.')] *)
Definition has_pred (id : option string) (name : list string)
    (action : option string) (hook : Hook) : bool :=
  bool_decide (id = h_id hook) && bool_decide (action = h_action hook)
  && bool_decide (Js.join name = Js.join (h_name hook)).

(** [Qyvent.has] of Qyvr.mjs. *)
Definition Qyvent_has (ev : Qyvent) (pattern : string) : bool :=
  let pattern := Js.Set_of (ev_id ev :: Js.split pattern) in
  let '(id, pattern) := Js.shift pattern in
  let '(action, pattern) := Js.pop pattern in
  Js.findIndex (has_pred id pattern action) (ev_hooks ev) >? -1.

(** The predicate of [filter] in [Qyvent.filter]. *)
Definition filter_pred (id : option string) (name : list string)
    (action : option string) (hook : Hook) : bool :=
  if negb (bool_decide (id = h_id hook))
     || negb (bool_decide (action = h_action hook))
     || negb (length (h_name hook) =? length name)%nat
  then false
  else Js.every (fun part index =>
         bool_decide (part = "*") || bool_decide (name !! index = Some part))
       (h_name hook).

(** The predicate of [filter] in [fire] of Qyvr.mjs; the two tests on a
    part are in the other order. *)
Definition fire_pred (id : option string) (pattern : list string)
    (action : option string) (hook : Hook) : bool :=
  if negb (bool_decide (id = h_id hook))
     || negb (bool_decide (action = h_action hook))
     || negb (length (h_name hook) =? length pattern)%nat
  then false
  else Js.every (fun part index =>
         bool_decide (pattern !! index = Some part) || bool_decide (part = "*"))
       (h_name hook).

(** [event.hooks.filter(hook => ...)] in [fire] of Qyvr.mjs. *)
Definition fire_hooks (event : Qyvent) (id : option string)
    (pattern : list string) (action : option string) : list Hook :=
  List.filter (fire_pred id pattern action) (ev_hooks event).

(** [Qyvent.filter(pattern)] *)
Definition Qyvent_filter (ev : Qyvent) (pattern : string) : list Hook :=
  let '(id, name, action) := parse pattern in
  List.filter (filter_pred id name action) (ev_hooks ev).

(** ** The store: namespace objects and the map of namespaces *)

(** [Qyvents] is the [Map] from namespace id to [Qyvent] object;
    [objs] holds the objects, so that a closure returned by [hook] keeps
    acting on the object it was created for; [next] is the next free
    reference. *)
Record Store : Type := mkStore {
  objs : gmap nat Qyvent;
  Qyvents : gmap string nat;
  next : nat
}.

Definition store_empty : Store := mkStore ∅ ∅ 0%nat.

(** [Qyvents.get(id)]: the reference of the namespace object, and the
    object. *)
Definition Qyvents_ref (S : Store) (id : option string) : option nat :=
  i ← id; Qyvents S !! i.

Definition Qyvents_get (S : Store) (id : option string) : option Qyvent :=
  l ← Qyvents_ref S id; objs S !! l.

(** [addEvent = (Qyvents, id, phases = ['main*'], ctx = {}) =>
      Qyvents.set(id, new Qyvent(id, phases, ctx))] *)
Definition addEvent (S : Store) (id : string) (phases : option (list string))
    (ctx : option (gmap string value)) : Store :=
  let l := next S in
  mkStore (<[l := Qyvent_new id phases ctx]> (objs S)) (<[id := l]> (Qyvents S))
          (Datatypes.S l).

(** [delEvent = (Qyvents, id) => Qyvents.delete(id)] *)
Definition delEvent (S : Store) (id : string) : Store :=
  mkStore (objs S) (delete id (Qyvents S)) (next S).

(** The closure returned by [hook]: the namespace object it captured as
    [this] and the hook object. *)
Record Handle : Type := mkHandle {
  hd_event : nat;
  hd_hook : nat
}.

(** [event.hook(pattern, cb, phase)], where [event] is what
    [Qyvents.get(id)] returned; the call throws when that is
    [undefined]. The new hook object takes the next free reference. *)
Definition event_hook (S : Store) (event : option nat) (pattern : string)
    (cb : Callback) (phase : option string) : Result (Store * Handle) :=
  match event with
  | None => Throw TypeError
  | Some l =>
      match objs S !! l with
      | None => Throw TypeError
      | Some ev =>
          let '(ev', hookObj) := Qyvent_hook (next S) pattern cb phase ev in
          Ok (mkStore (<[l := ev']> (objs S)) (Qyvents S) (Datatypes.S (next S)),
              mkHandle l (h_ref hookObj))
      end
  end.

(** [addHook]: [id = pattern.split('.', 1)[0], event = Qyvents.get(id)],
    then [event.hook(pattern, cb, phase)]. *)
Definition addHook (S : Store) (pattern : string) (cb : Callback)
    (phase : option string) : Result (Store * Handle) :=
  let id := Js.split1 pattern !! 0%nat in
  let event := Qyvents_ref S id in
  event_hook S event pattern cb phase.

(** Calling the closure returned by [hook]. *)
Definition unhook (S : Store) (hd : Handle) : Store :=
  mkStore (alter (Qyvent_unhook (hd_hook hd)) (hd_event hd) (objs S))
          (Qyvents S) (next S).

(** [Qyvr.has] of the class-based version; [None] is the [undefined]
    that [event && ...] yields when there is no namespace. *)
Definition Qyvr_has (S : Store) (pattern : string) : option bool :=
  let '(id, pattern, action) := parse pattern in
  match Qyvents_get S id with
  | None => None
  | Some event =>
      Some (Js.findIndex (has_pred id pattern action) (ev_hooks event) >? -1)
  end.

(** ** fire *)

(** How the promise returned by [fire] settles. *)
Inductive Settled : Type :=
  | Resolved (v : value)
  | Rejected (e : value)
  | Pending.

(** A run of [fire]: how it settles, the hooks whose callbacks were
    called, in order, and the host state at the end. *)
Record Run : Type := mkRun {
  settled : Settled;
  invoked : list Hook;
  world : World
}.

Definition called (hook : Hook) (r : Run) : Run :=
  mkRun (settled r) (hook :: invoked r) (world r).

Definition called_all (hooks : list Hook) (r : Run) : Run :=
  mkRun (settled r) (hooks ++ invoked r) (world r).

(** [ctx = { ...event.ctx, args, return: undefined, stop() {...} }];
    [stopped] is not set, and so is read from the copied properties. *)
Definition ctx_new (shared : gmap string value) (args : list value) : Ctx :=
  mkCtx shared args VUndef (default VUndef (shared !! "stopped")).

(** [if(result !== undefined) { ctx.return = result }] *)
Definition record_result (result : value) (c : Ctx) : Ctx :=
  match result with
  | VUndef => c
  | _ => ctx_set_return result c
  end.

(** The loop of [fire] followed by [return ctx.return]. When a callback
    never settles, neither does [fire], and the host state is left as
    it was found. *)
Fixpoint run_hooks (hooks : list Hook) (ctx : Ctx) (args : list value)
    (w : World) : Run :=
  match hooks with
  | [] => mkRun (Resolved (c_return ctx)) [] w
  | hook :: rest =>
      match h_cb hook w ctx args with
      | Hangs => mkRun Pending [hook] w
      | Failed e _ w' => mkRun (Rejected e) [hook] w'
      | Fulfilled result ctx w' =>
          let ctx := record_result result ctx in
          if truthy (c_stopped ctx)
          then mkRun (Resolved (c_return ctx)) [hook] w'
          else called hook (run_hooks rest ctx args w')
      end
  end.

(** [fire] of Qyvr.mjs. Reading [event.ctx] throws when the namespace is
    missing, which rejects the promise of the async function. *)
Definition fire (S : Store) (pattern : string) (args : list value)
    (w : World) : Run :=
  let pattern := Js.split pattern in
  let '(id, pattern) := Js.shift pattern in
  let '(action, pattern) := Js.pop pattern in
  match Qyvents_get S id with
  | None => mkRun (Rejected TypeError) [] w
  | Some event =>
      let ctx := ctx_new (ev_ctx event) args in
      let hooks := fire_hooks event id pattern action in
      run_hooks hooks ctx args w
  end.

(** [Qyvr.fire] of the class-based version. *)
Definition Qyvr_fire (S : Store) (pattern : string) (args : list value)
    (w : World) : Run :=
  let id := Js.split1 pattern !! 0%nat in
  match Qyvents_get S id with
  | None => mkRun (Rejected TypeError) [] w
  | Some event =>
      let ctx := ctx_new (ev_ctx event) args in
      run_hooks (Qyvent_filter event pattern) ctx args w
  end.

(** [methodHook] / [Qyvr.method] *)
Definition methodHook (S : Store) (pattern : string) (cb : Callback)
  : Result (Store * Handle) :=
  let id := Js.split1 pattern !! 0%nat in
  let event := Qyvents_ref S id in
  event_hook S event (pattern +:+ ".call") cb None.

(** [() => {}], the default getter and setter. *)
Definition cb_empty : Callback := fun w c _ => Fulfilled VUndef c w.

(** [propertyHook] / [Qyvr.property]; the two closures returned by
    [hook] are returned. *)
Definition propertyHook (S : Store) (pattern : string)
    (getter setter : option Callback) : Result (Store * (Handle * Handle)) :=
  let id := Js.split1 pattern !! 0%nat in
  let event := Qyvents_ref S id in
  match event_hook S event (pattern +:+ ".get") (default cb_empty getter) None with
  | Throw e => Throw e
  | Ok (S1, removeGetter) =>
      match event_hook S1 event (pattern +:+ ".set") (default cb_empty setter) None with
      | Throw e => Throw e
      | Ok (S2, removeSetter) => Ok (S2, (removeGetter, removeSetter))
      end
  end.

(** The closure returned by [propertyHook]:
    [() => { removeGetter(); removeSetter() }] *)
Definition unhook_property (S : Store) (remove : Handle * Handle) : Store :=
  unhook (unhook S remove.1) remove.2.

(** What the [get] trap of the proxy returns: the closure
    [(...args) => fire(Qyvents, callPattern, ...args)], which is known
    by its pattern, or the promise of [fire(Qyvents, getPattern)]. *)
Inductive ProxyGet : Type :=
  | Method (callPattern : string)
  | Promise (r : Run).

(** The key that a [get] trap receives: a string or a symbol. *)
Inductive PropertyKey : Type :=
  | KString (s : string)
  | KSymbol (description : string).

(** [qyvrProxyHandler.get]: [qyvr = Qyvents.get(ns)], then the two
    template literals, which throw on a symbol, then
    [qyvr.has(callPattern)], which throws when [qyvr] is [undefined]. *)
Definition qyvrProxyHandler_get (S : Store) (ns : string)
    (property : PropertyKey) (w : World) : Result ProxyGet :=
  let qyvr := Qyvents_get S (Some ns) in
  match property with
  | KSymbol _ => Throw TypeError
  | KString property =>
      let callPattern := ns +:+ "." +:+ property +:+ ".call" in
      let getPattern := ns +:+ "." +:+ property +:+ ".get" in
      match qyvr with
      | None => Throw TypeError
      | Some qyvr =>
          if Qyvent_has qyvr callPattern
          then Ok (Method callPattern)
          else Ok (Promise (fire S getPattern [] w))
      end
  end.

End Qyvr.

Arguments Outcome World : clear implicits.
Arguments Callback World : clear implicits.
Arguments Hook World : clear implicits.
Arguments Qyvent World : clear implicits.
Arguments Store World : clear implicits.
Arguments Run World : clear implicits.
Arguments ProxyGet World : clear implicits.

(** A segment: a string without a dot. *)
Fixpoint dotfree (s : string) : bool :=
  match s with
  | EmptyString => true
  | String c s' => negb (Ascii.eqb c "."%char) && dotfree s'
  end.

(** ** The properties, as the specification words them *)

Section Spec.

Context {World : Type}.

(** The match rule: equal namespace id, equal action, name parts of
    equal length, and every name part of the hook is [*] or the part of
    the fired pattern at the same position. *)
Definition spec_match (id : option string) (name : list string)
    (action : option string) (hook : Hook World) : Prop :=
  h_id hook = id /\ h_action hook = action
  /\ length (h_name hook) = length name
  /\ forall (i : nat) (part : string),
       h_name hook !! i = Some part -> part = "*" \/ name !! i = Some part.

(** Hooks sorted by ascending phase index. *)
Definition phase_sorted (phases : list string) (hooks : list (Hook World)) : Prop :=
  StronglySorted
    (fun a b => phase_index phases a <= phase_index phases b) hooks.

(** Hooks with the same phase index stand in registration order:
    references are handed out in increasing order, so the hook that was
    registered first has the smaller one. *)
Definition registration_ordered (phases : list string)
    (hooks : list (Hook World)) : Prop :=
  forall (i j : nat) (a b : Hook World),
    (i < j)%nat -> hooks !! i = Some a -> hooks !! j = Some b ->
    phase_index phases a = phase_index phases b ->
    (h_ref a < h_ref b)%nat.

(** Hooks of a phase that is not declared stand before the hooks of
    every declared phase. *)
Definition unknown_first (phases : list string)
    (hooks : list (Hook World)) : Prop :=
  forall (i j : nat) (a b : Hook World) (q : string),
    hooks !! i = Some a -> hooks !! j = Some b ->
    (forall p, h_phase a = Some p -> p ∉ phases) ->
    h_phase b = Some q -> q ∈ phases ->
    (i < j)%nat.

(** [a] stands before [b]: in an earlier phase, or in the same phase and
    registered earlier. *)
Definition hook_before (phases : list string) (a b : Hook World) : Prop :=
  phase_index phases a < phase_index phases b
  \/ (phase_index phases a = phase_index phases b /\ (h_ref a < h_ref b)%nat).

(** What holds of every namespace object of a store that the operations
    can build. *)
Definition store_inv (S : Store World) : Prop :=
  forall (l : nat) (ev : Qyvent World),
    objs S !! l = Some ev ->
    StronglySorted (hook_before (ev_phases ev)) (ev_hooks ev)
    /\ Forall (fun h => (h_ref h < next S)%nat) (ev_hooks ev).

(** The stores that the operations build from [new Map()], together with
    the unregister closures handed out so far. Every registration
    ([addHook], [methodHook], each half of [propertyHook]) is a call of
    [hook] on what [Qyvents.get] returned. *)
Inductive reachable : Store World -> list Handle -> Prop :=
  | reach_empty : reachable store_empty []
  | reach_addEvent S hs id phases ctx :
      reachable S hs -> reachable (addEvent S id phases ctx) hs
  | reach_delEvent S hs id :
      reachable S hs -> reachable (delEvent S id) hs
  | reach_hook S hs id pattern cb phase S' hd :
      reachable S hs ->
      event_hook S (Qyvents_ref S id) pattern cb phase = Ok (S', hd) ->
      reachable S' (hd :: hs)
  | reach_unhook S hs hd :
      reachable S hs -> hd ∈ hs -> reachable (unhook S hd) hs.

(** The stores that the operations build from the store [S0], together
    with the unregister closures handed out: those of [hs0] and the ones
    handed out since. *)
Inductive later (S0 : Store World) (hs0 : list Handle)
  : Store World -> list Handle -> Prop :=
  | later_refl : later S0 hs0 S0 hs0
  | later_addEvent S hs id phases ctx :
      later S0 hs0 S hs -> later S0 hs0 (addEvent S id phases ctx) hs
  | later_delEvent S hs id :
      later S0 hs0 S hs -> later S0 hs0 (delEvent S id) hs
  | later_hook S hs id pattern cb phase S' hd :
      later S0 hs0 S hs ->
      event_hook S (Qyvents_ref S id) pattern cb phase = Ok (S', hd) ->
      later S0 hs0 S' (hd :: hs)
  | later_unhook S hs hd :
      later S0 hs0 S hs -> hd ∈ hs -> later S0 hs0 (unhook S hd) hs.

(** [awaited args hooks c w c' w']: starting with context [c] and host
    state [w], the callbacks of [hooks] were awaited one after the
    other, each fulfilled, each result that is not [undefined] was
    written to the return slot, and none left [stopped] truthy; the
    context and host state are then [c'] and [w']. *)
Inductive awaited (args : list value)
  : list (Hook World) -> Ctx -> World -> Ctx -> World -> Prop :=
  | awaited_nil c w : awaited args [] c w c w
  | awaited_cons hook hooks c w result c1 w1 c' w' :
      h_cb hook w c args = Fulfilled result c1 w1 ->
      truthy (c_stopped (record_result result c1)) = false ->
      awaited args hooks (record_result result c1) w1 c' w' ->
      awaited args (hook :: hooks) c w c' w'.

(** An error that wraps [cause]: an error object whose [cause] it is. *)
Definition wraps (e cause : value) : Prop :=
  exists name : string, e = VError name cause.

(** A stored hook that equals the pattern literally: same namespace id,
    same action, and the same name parts once joined. *)
Definition literal_match (id : option string) (name : list string)
    (action : option string) (hook : Hook World) : Prop :=
  h_id hook = id /\ h_action hook = action
  /\ Js.join (h_name hook) = Js.join name.

(** What else holds of every store that the operations can build: every
    registered id leads to a namespace object that carries this id;
    references are below the counter; in a namespace the references of
    the hooks are pairwise distinct and the name parts are free of
    dots. *)
Definition store_wf (S : Store World) : Prop :=
  (forall (id : string) (l : nat),
     Qyvents S !! id = Some l ->
     exists ev, objs S !! l = Some ev /\ ev_id ev = id)
  /\ (forall (l : nat) (ev : Qyvent World),
       objs S !! l = Some ev ->
       (l < next S)%nat
       /\ NoDup (map h_ref (ev_hooks ev))
       /\ Forall (fun h => Forall (fun seg => dotfree seg = true) (h_name h))
            (ev_hooks ev)).

(** A callback that fulfils and leaves the context object as it found
    it. *)
Definition ctx_preserving (args : list value) (hook : Hook World) : Prop :=
  forall (w : World) (c : Ctx),
    exists result w', h_cb hook w c args = Fulfilled result c w'.

End Spec.

(** A comparator that is the difference of two keys, and the order it
    sorts by. *)
Definition key_cmp {A} (key : A -> Z) (a b : A) : Z := key a - key b.

Definition key_le {A} (key : A -> Z) (a b : A) : Prop := key a <= key b.

(** The first occurrences of the elements of an array, in order. *)
Fixpoint first_occurrences (a : list string) : list string :=
  match a with
  | [] => []
  | x :: rest => x :: List.filter (fun y => negb (String.eqb y x)) (first_occurrences rest)
  end.

(** The phase name as stored: without the marker. *)
Definition strip_marker (phase : string) : string :=
  if Js.endsWith_star phase then Js.slice_0_m1 phase else phase.

(** ** Scenarios *)

Module Scenario.

(** A hook that returns [v]. *)
Definition cb_return (v : value) : Callback unit :=
  fun w c _ => Fulfilled v c w.

(** A hook that calls [this.stop()] and returns nothing. *)
Definition cb_stop : Callback unit :=
  fun w c _ => Fulfilled VUndef (ctx_stop c) w.

(** A hook that throws [e]. *)
Definition cb_throw (e : value) : Callback unit :=
  fun w c _ => Failed e c w.

(** The store after a registration that is expected to succeed. *)
Definition hooked (S : Store unit) (pattern : string) (cb : Callback unit)
    (phase : option string) : Store unit :=
  match addHook S pattern cb phase with
  | Ok (S', _) => S'
  | Throw _ => S
  end.

(** [add('ns')]: the namespace object has reference 0. *)
Definition S_ns : Store unit := addEvent store_empty "ns" None None.

(** [add('sys', ['pre', 'main*', 'post'])] *)
Definition S_sys : Store unit :=
  addEvent store_empty "sys" (Some ["pre"; "main*"; "post"]) None.

(** Hooks registered into [post], [pre], [main], in this order. *)
Definition S_post : Store unit :=
  hooked S_sys "sys.login.call" (cb_return (VStr "post")) (Some "post").

Definition S_post_pre : Store unit :=
  hooked S_post "sys.login.call" (cb_return (VStr "pre")) (Some "pre").

Definition S_phases : Store unit :=
  hooked S_post_pre "sys.login.call" (cb_return (VStr "main")) None.

(** Three hooks registered one after the other; their references are
    1, 2 and 3. *)
Definition S_ab : Store unit :=
  hooked (hooked S_ns
    "ns.a.call" (cb_return (VStr "a")) None)
    "ns.b.call" (cb_return (VStr "b")) None.

Definition S_abc : Store unit :=
  hooked S_ab "ns.c.call" (cb_return (VStr "c")) None.

(** The closure that registering [ns.b.call] returned. *)
Definition remove_b : Handle := mkHandle 0 2.

(** A hook at [ns.x.call], then a property at [ns.p]; the closures of
    its getter and setter. *)
Definition S_x : Store unit :=
  hooked S_ns "ns.x.call" (cb_return (VStr "x")) None.

Definition S_xp : Store unit :=
  match propertyHook S_x "ns.p" None None with
  | Ok (S', _) => S'
  | Throw _ => S_x
  end.

Definition remove_p : Handle * Handle := (mkHandle 0 2, mkHandle 0 3).

(** A wildcard hook. *)
Definition S_wild : Store unit :=
  hooked S_ns "ns.*.call" (cb_return (VStr "any")) None.

(** A hook at [ns.a.call]. *)
Definition S_a : Store unit :=
  hooked S_ns "ns.a.call" (cb_return (VStr "a")) None.

(** A hook at [ns.call]: no name parts. *)
Definition S_call : Store unit :=
  hooked S_ns "ns.call" (cb_return (VStr "call")) None.

(** A hook that returns a value, then a hook that stops without
    returning, then a hook that would return another value. *)
Definition S_stop : Store unit :=
  hooked (hooked (hooked S_ns
    "ns.a.call" (cb_return (VStr "early")) None)
    "ns.a.call" cb_stop None)
    "ns.a.call" (cb_return (VStr "late")) None.

(** A hook that returns a value, then a hook that throws, then a hook
    that would return another value. *)
Definition S_throw : Store unit :=
  hooked (hooked (hooked S_ns
    "ns.a.call" (cb_return (VStr "early")) None)
    "ns.a.call" (cb_throw (VStr "boom")) None)
    "ns.a.call" (cb_return (VStr "late")) None.

(** [method('sys.login', (username, password) => username === 'admin')] *)
Definition cb_login : Callback unit :=
  fun w c args =>
    Fulfilled (VBool (bool_decide (args !! 0%nat = Some (VStr "admin")))) c w.

Definition S_login : Store unit :=
  match methodHook S_sys "sys.login" cb_login with
  | Ok (S', _) => S'
  | Throw _ => S_sys
  end.

(** [ns] registered anew after the three hooks, then a hook on the new
    namespace: the new namespace object has reference 4, the hook 5. *)
Definition S_anew : Store unit := addEvent S_abc "ns" None None.

Definition S_renewed : Store unit :=
  hooked S_anew "ns.z.call" (cb_return (VStr "z")) None.

(** A namespace whose shared context holds [stopped: true], with two
    hooks. *)
Definition S_halt : Store unit :=
  hooked (hooked
    (addEvent store_empty "ns" None (Some {["stopped" := VBool true]}))
    "ns.a.call" (cb_return (VStr "one")) None)
    "ns.a.call" (cb_return (VStr "two")) None.

(** A property that is backed by a variable of the host; the host state
    is the value of the variable. *)
Definition cb_get : Callback value := fun w c _ => Fulfilled w c w.

Definition cb_set : Callback value :=
  fun w c args => Fulfilled VUndef c (default VUndef (args !! 0%nat)).

Definition S_nodes : Store value :=
  addEvent store_empty "nodes" (Some ["main*"]) None.

(** The namespace object of a scenario, and its hooks by position. *)
Definition event_of (S : Store unit) : Qyvent unit :=
  default (Qyvent_new "" None None) (objs S !! 0%nat).

Definition nth_hook (S : Store unit) (n : nat) : Hook unit :=
  default (mkHook 0 None [] None (cb_return VUndef) None)
          (ev_hooks (event_of S) !! n).

End Scenario.

(** ** Facts about strings and arrays *)

Lemma split_not_nil (s : string) : Js.split s <> [].
Proof.
  induction s as [|c s IH]; simpl; [discriminate|].
  destruct (Ascii.eqb c "."); [discriminate|].
  destruct (Js.split s); discriminate.
Qed.

Lemma every_from_lookup {A} (p : A -> nat -> bool) (a : list A) (i : nat) :
  Js.every_from p a i = true <->
  forall (j : nat) (x : A), a !! j = Some x -> p x (i + j)%nat = true.
Proof.
  revert i. induction a as [|y a IH]; intros i; simpl.
  - split; [intros _ j x Hj; discriminate | reflexivity].
  - rewrite andb_true_iff, IH. split.
    + intros [Hy Ha] [|j] x Hj; simpl in Hj.
      * injection Hj as <-. now rewrite Nat.add_0_r.
      * replace (i + S j)%nat with (S i + j)%nat by lia. now apply Ha.
    + intros H. split.
      * specialize (H 0%nat y eq_refl). now rewrite Nat.add_0_r in H.
      * intros j x Hj. specialize (H (S j) x Hj).
        now replace (i + S j)%nat with (S i + j)%nat in H by lia.
Qed.

Lemma every_lookup {A} (p : A -> nat -> bool) (a : list A) :
  Js.every p a = true <->
  forall (j : nat) (x : A), a !! j = Some x -> p x j = true.
Proof. unfold Js.every. now rewrite every_from_lookup. Qed.

(** ** Segments *)

Lemma split_short (s : string) :
  (length (Js.split s) < 2)%nat -> Js.split s = [s].
Proof.
  induction s as [|c s IH]; simpl; [reflexivity|].
  pose proof (split_not_nil s) as Hne.
  destruct (Ascii.eqb c "."); simpl.
  - destruct (Js.split s); [contradiction | simpl; lia].
  - destruct (Js.split s) as [|seg segs]; [contradiction|]. simpl in *.
    intros Hlen. rewrite IH in * by lia.
    injection (IH ltac:(lia)) as -> ->. reflexivity.
Qed.

Lemma split_dotfree_id (s : string) : dotfree s = true -> Js.split s = [s].
Proof.
  induction s as [|c s IH]; simpl; [reflexivity|].
  destruct (Ascii.eqb c "."); simpl; [discriminate|].
  intros H. now rewrite (IH H).
Qed.

Lemma split_dotfree (s : string) :
  Forall (fun seg => dotfree seg = true) (Js.split s).
Proof.
  induction s as [|c s IH]; simpl; [repeat constructor|].
  pose proof (split_not_nil s) as Hne.
  destruct (Ascii.eqb c ".") eqn:Hc; [now constructor|].
  destruct (Js.split s) as [|seg segs]; [contradiction|].
  apply Forall_cons in IH as [Hseg Hsegs]. constructor; [|exact Hsegs].
  simpl. now rewrite Hc.
Qed.

Lemma split_append_dot (a b : string) :
  dotfree a = true -> Js.split (a +:+ "." +:+ b) = a :: Js.split b.
Proof.
  induction a as [|c a IH]; simpl; [reflexivity|].
  destruct (Ascii.eqb c "."); simpl; [discriminate|].
  intros H. now rewrite (IH H).
Qed.

(** Splitting what was joined gives the segments back. *)
Lemma split_join (a : list string) :
  a <> [] -> Forall (fun seg => dotfree seg = true) a -> Js.split (Js.join a) = a.
Proof.
  induction a as [|x a IH]; [contradiction|]. intros _ H.
  apply Forall_cons in H as [Hx Ha]. destruct a as [|y a].
  - simpl. now apply split_dotfree_id.
  - change (Js.join (x :: y :: a)) with (x +:+ "." +:+ Js.join (y :: a)).
    rewrite split_append_dot by exact Hx. now rewrite IH.
Qed.

(** ** Sets of segments *)

Lemma filter_filter_and {A} (p q : A -> bool) (l : list A) :
  List.filter p (List.filter q l) = List.filter (fun y => p y && q y) l.
Proof.
  induction l as [|x l IH]; simpl; [reflexivity|].
  destruct (q x); simpl; rewrite ?andb_true_r, ?andb_false_r.
  - destruct (p x); now rewrite IH.
  - exact IH.
Qed.

Lemma Set_add_fold (a acc : list string) :
  fold_left Js.Set_add a acc
  = acc ++ List.filter (fun y => negb (bool_decide (y ∈ acc))) (first_occurrences a).
Proof.
  revert acc. induction a as [|x a IH]; intros acc; simpl.
  - now rewrite app_nil_r.
  - unfold Js.Set_add at 2. destruct (bool_decide_reflect (x ∈ acc)) as [Hx|Hx]; simpl.
    + rewrite IH. f_equal. rewrite filter_filter_and. apply filter_ext_in.
      intros y _. destruct (bool_decide_reflect (y ∈ acc)) as [Hy|Hy]; simpl;
        [reflexivity|].
      destruct (String.eqb_spec y x) as [->|]; [contradiction | reflexivity].
    + rewrite IH, <- app_assoc. simpl. do 2 f_equal.
      rewrite filter_filter_and. apply filter_ext. intros y.
      destruct (bool_decide_reflect (y ∈ acc ++ [x])) as [Hy|Hy];
        destruct (bool_decide_reflect (y ∈ acc)) as [Hy'|Hy'];
        destruct (String.eqb_spec y x) as [->|Hne]; simpl; try reflexivity;
        exfalso; rewrite elem_of_app, list_elem_of_singleton in Hy; tauto.
Qed.

(** [[...new Set(a)]] keeps the first occurrence of every element. *)
Lemma Set_of_first_occurrences (a : list string) :
  Js.Set_of a = first_occurrences a.
Proof.
  unfold Js.Set_of. rewrite Set_add_fold. simpl.
  rewrite <- (filter_true (first_occurrences a)) at 2.
  apply filter_ext. intros y.
  now destruct (bool_decide_reflect (y ∈ @nil string)) as [Hy%elem_of_nil|].
Qed.

Lemma first_occurrences_elem (x : string) (a : list string) :
  x ∈ first_occurrences a <-> x ∈ a.
Proof.
  induction a as [|y a IH]; simpl; [reflexivity|].
  rewrite !elem_of_cons, list_elem_of_In, filter_In, <- list_elem_of_In, IH.
  destruct (String.eqb_spec x y) as [->|Hne]; simpl; intuition congruence.
Qed.

Lemma NoDup_List_filter {A} (p : A -> bool) (l : list A) :
  NoDup l -> NoDup (List.filter p l).
Proof.
  induction 1 as [|x l Hx Hl IH]; simpl; [constructor|].
  destruct (p x); [|exact IH]. constructor; [|exact IH].
  rewrite list_elem_of_In, filter_In, <- list_elem_of_In. tauto.
Qed.

Lemma first_occurrences_NoDup (a : list string) : NoDup (first_occurrences a).
Proof.
  induction a as [|y a IH]; simpl; constructor.
  - rewrite list_elem_of_In, filter_In. intros [_ H].
    now rewrite String.eqb_refl in H.
  - now apply NoDup_List_filter.
Qed.

Lemma first_occurrences_id (a : list string) :
  NoDup a -> first_occurrences a = a.
Proof.
  induction 1 as [|x a Hx Ha IH]; simpl; [reflexivity|].
  rewrite IH. f_equal. apply forallb_filter_id, forallb_forall.
  intros y Hy. destruct (String.eqb_spec y x) as [->|]; [|reflexivity].
  now apply list_elem_of_In in Hy.
Qed.

Lemma Set_of_cons_Set_of (x : string) (a : list string) :
  Js.Set_of (x :: Js.Set_of a) = Js.Set_of (x :: a).
Proof.
  rewrite !Set_of_first_occurrences. simpl.
  now rewrite (first_occurrences_id _ (first_occurrences_NoDup a)).
Qed.

Lemma Set_of_cons (x : string) (a : list string) :
  exists rest, Js.Set_of (x :: a) = x :: rest.
Proof. rewrite Set_of_first_occurrences. simpl. eauto. Qed.

Lemma Set_of_Forall (P : string -> Prop) (a : list string) :
  Forall P a -> Forall P (Js.Set_of a).
Proof.
  rewrite Set_of_first_occurrences, !Forall_forall.
  intros H x Hx. apply H. now apply first_occurrences_elem.
Qed.

Lemma split_join_Set_of (pattern : string) :
  Js.split (Js.join (Js.Set_of (Js.split pattern))) = Js.Set_of (Js.split pattern).
Proof.
  apply split_join.
  - pose proof (split_not_nil pattern) as Hne.
    destruct (Js.split pattern) as [|x a]; [contradiction|].
    destruct (Set_of_cons x a) as [rest ->]. discriminate.
  - apply Set_of_Forall, split_dotfree.
Qed.

(** ** Matching *)

Section Matching.

Context {World : Type}.
Implicit Types (hook : Hook World) (event : Qyvent World).

Lemma fire_pred_spec id name action hook :
  fire_pred id name action hook = true <-> spec_match id name action hook.
Proof.
  unfold fire_pred, spec_match.
  destruct (bool_decide_reflect (id = h_id hook)) as [Hid|Hid]; simpl;
    [|split; [discriminate | intros [? _]; congruence]].
  destruct (bool_decide_reflect (action = h_action hook)) as [Hac|Hac]; simpl;
    [|split; [discriminate | intros (_ & ? & _); congruence]].
  destruct (Nat.eqb_spec (length (h_name hook)) (length name)) as [Hlen|Hlen]; simpl;
    [|split; [discriminate | intros (_ & _ & ? & _); congruence]].
  rewrite every_lookup. split.
  - intros H. repeat split; try congruence. intros i part Hi.
    specialize (H i part Hi). apply orb_true_iff in H as [H|H].
    + right. now apply bool_decide_eq_true in H.
    + left. now apply bool_decide_eq_true in H.
  - intros (_ & _ & _ & H) i part Hi. apply orb_true_iff.
    destruct (H i part Hi) as [H'|H'].
    + right. now apply bool_decide_eq_true.
    + left. now apply bool_decide_eq_true.
Qed.

Lemma filter_pred_fire_pred id name action hook :
  filter_pred id name action hook = fire_pred id name action hook.
Proof.
  unfold filter_pred, fire_pred.
  destruct (_ || _ || _); [reflexivity|].
  unfold Js.every. generalize 0%nat.
  induction (h_name hook) as [|part parts IH]; intros i; simpl; [reflexivity|].
  now rewrite IH, orb_comm.
Qed.

Lemma Qyvent_filter_fire_hooks event pattern :
  Qyvent_filter event pattern
  = fire_hooks event (parse pattern).1.1 (parse pattern).1.2 (parse pattern).2.
Proof.
  unfold Qyvent_filter, fire_hooks.
  destruct (parse pattern) as [[id name] action]; simpl.
  apply filter_ext. intros hook. apply filter_pred_fire_pred.
Qed.

End Matching.

(** ** Sorting by a key *)

Section SortFacts.

Context {A : Type} (key : A -> Z).

Local Abbreviation cmp := (key_cmp key).
Local Abbreviation le := (key_le key).

Lemma sort_snoc (l : list A) (x : A) :
  Js.sort cmp (l ++ [x]) = Js.sort_insert cmp x (Js.sort cmp l).
Proof. unfold Js.sort. now rewrite fold_left_app. Qed.

Lemma sort_insert_perm (x : A) (l : list A) :
  Permutation (Js.sort_insert cmp x l) (l ++ [x]).
Proof.
  induction l as [|y l IH]; simpl; [reflexivity|].
  destruct (cmp y x <=? 0).
  - now constructor.
  - change (x :: y :: l) with ([x] ++ (y :: l)).
    change (y :: l ++ [x]) with ((y :: l) ++ [x]).
    apply Permutation_app_comm.
Qed.

Lemma sort_perm (l : list A) : Permutation (Js.sort cmp l) l.
Proof.
  induction l as [|x l IH] using rev_ind; [reflexivity|].
  rewrite sort_snoc, sort_insert_perm. now apply Permutation_app_tail.
Qed.

Lemma sort_insert_elem (x y : A) (l : list A) :
  y ∈ Js.sort_insert cmp x l -> y = x \/ y ∈ l.
Proof.
  rewrite sort_insert_perm, elem_of_app, list_elem_of_singleton. tauto.
Qed.

Lemma sort_insert_sorted (x : A) (l : list A) :
  StronglySorted le l -> StronglySorted le (Js.sort_insert cmp x l).
Proof.
  induction 1 as [|y l Hl IH Hy]; simpl.
  - repeat constructor.
  - destruct (Z.leb_spec (cmp y x) 0) as [Hc|Hc]; unfold key_cmp in Hc.
    + constructor; [exact IH|]. apply Forall_forall. intros z Hz.
      apply sort_insert_elem in Hz as [->|Hz]; [unfold key_le; lia|].
      now apply (proj1 (Forall_forall _ _) Hy).
    + constructor; [now constructor|]. constructor; [unfold key_le; lia|].
      apply Forall_forall. intros z Hz.
      pose proof (proj1 (Forall_forall _ _) Hy z Hz) as Hyz.
      unfold key_le in *. lia.
Qed.

Lemma sort_sorted (l : list A) : StronglySorted le (Js.sort cmp l).
Proof.
  induction l as [|x l IH] using rev_ind; [constructor|].
  rewrite sort_snoc. now apply sort_insert_sorted.
Qed.

Lemma sort_insert_last (x : A) (l : list A) :
  Forall (fun y => key y <= key x) l -> Js.sort_insert cmp x l = l ++ [x].
Proof.
  induction 1 as [|y l Hy Hl IH]; simpl; [reflexivity|].
  destruct (Z.leb_spec (cmp y x) 0) as [Hc|Hc]; unfold key_cmp in Hc; [|lia].
  now rewrite IH.
Qed.

Lemma sorted_snoc_inv (l : list A) (x : A) :
  StronglySorted le (l ++ [x]) ->
  StronglySorted le l /\ Forall (fun y => key y <= key x) l.
Proof.
  induction l as [|y l IH]; simpl; intros H; [split; constructor|].
  apply StronglySorted_inv in H as [Hl Hy].
  destruct (IH Hl) as [Hs Hx]. split.
  - constructor; [exact Hs|].
    apply Forall_app in Hy as [Hy _]. exact Hy.
  - constructor; [|exact Hx].
    apply Forall_app in Hy as [_ Hy]. now inversion Hy.
Qed.

(** Sorting leaves a sorted array as it is. *)
Lemma sort_sorted_id (l : list A) : StronglySorted le l -> Js.sort cmp l = l.
Proof.
  induction l as [|x l IH] using rev_ind; intros H; [reflexivity|].
  apply sorted_snoc_inv in H as [Hl Hx].
  rewrite sort_snoc, (IH Hl). now apply sort_insert_last.
Qed.

Lemma filter_key_none (k : Z) (l : list A) :
  Forall (fun y => key y <> k) l -> List.filter (fun y => key y =? k) l = [].
Proof.
  induction 1 as [|y l Hy Hl IH]; simpl; [reflexivity|].
  destruct (Z.eqb_spec (key y) k); [contradiction | exact IH].
Qed.

Lemma sort_insert_stable (k : Z) (x : A) (l : list A) :
  StronglySorted le l ->
  List.filter (fun y => key y =? k) (Js.sort_insert cmp x l)
  = List.filter (fun y => key y =? k) (l ++ [x]).
Proof.
  induction 1 as [|y l Hl IH Hy]; simpl; [reflexivity|].
  destruct (Z.leb_spec (cmp y x) 0) as [Hc|Hc]; unfold key_cmp in Hc; simpl.
  - now rewrite IH.
  - rewrite List.filter_app. simpl.
    destruct (Z.eqb_spec (key x) k) as [Hk|Hk].
    + destruct (Z.eqb_spec (key y) k); [lia|].
      rewrite filter_key_none; [reflexivity|].
      apply Forall_forall. intros z Hz.
      pose proof (proj1 (Forall_forall _ _) Hy z Hz) as Hyz.
      unfold key_le in Hyz. lia.
    + now rewrite app_nil_r.
Qed.

(** The sort is stable: the elements of one key keep their order. *)
Lemma sort_stable (k : Z) (l : list A) :
  List.filter (fun y => key y =? k) (Js.sort cmp l)
  = List.filter (fun y => key y =? k) l.
Proof.
  induction l as [|x l IH] using rev_ind; [reflexivity|].
  rewrite sort_snoc, sort_insert_stable by apply sort_sorted.
  now rewrite !List.filter_app, IH.
Qed.

End SortFacts.

(** ** Array facts *)

Lemma StronglySorted_lookup {A} (R : A -> A -> Prop) (l : list A) (i j : nat) (a b : A) :
  StronglySorted R l -> (i < j)%nat -> l !! i = Some a -> l !! j = Some b -> R a b.
Proof.
  intros H. revert i j. induction H as [|x l Hl IH Hx]; intros i j Hij Hi Hj.
  - discriminate.
  - destruct j as [|j]; [lia|]. simpl in Hj. destruct i as [|i]; simpl in Hi.
    + injection Hi as <-. apply (proj1 (Forall_forall _ _) Hx).
      apply list_elem_of_lookup. eauto.
    + apply (IH i j); [lia | assumption..].
Qed.

Lemma StronglySorted_take {A} (R : A -> A -> Prop) (l : list A) (n : nat) :
  StronglySorted R l -> StronglySorted R (take n l).
Proof.
  intros H. revert n. induction H as [|x l Hl IH Hx]; intros [|n]; simpl;
    try constructor; [apply IH | now apply Forall_take].
Qed.

Lemma StronglySorted_weaken {A} (R R' : A -> A -> Prop) (l : list A) :
  (forall a b, R a b -> R' a b) -> StronglySorted R l -> StronglySorted R' l.
Proof.
  intros HR. induction 1 as [|x l Hl IH Hx]; constructor; [exact IH|].
  eapply Forall_impl; [exact Hx | auto].
Qed.

Lemma splice_take {A} (l : list A) (start : Z) :
  exists n : nat, Js.splice l start = take n l.
Proof. unfold Js.splice. eauto. Qed.

Lemma findIndex_from_range {A} (p : A -> bool) (l : list A) (i : Z) :
  Js.findIndex_from p l i = -1
  \/ i <= Js.findIndex_from p l i < i + Z.of_nat (length l).
Proof.
  revert i. induction l as [|x l IH]; intros i; simpl; [now left|].
  destruct (p x); [right; lia|].
  destruct (IH (i + 1)) as [H|H]; [left; exact H | right; lia].
Qed.

Lemma findIndex_from_none {A} (p : A -> bool) (l : list A) (i : Z) :
  0 <= i -> (Js.findIndex_from p l i = -1 <-> Forall (fun x => p x = false) l).
Proof.
  revert i. induction l as [|x l IH]; intros i Hi; simpl.
  - split; [constructor | reflexivity].
  - destruct (p x) eqn:Hp.
    + split; [lia | intros H; inversion H; congruence].
    + rewrite IH by lia. split; [now constructor | now inversion 1].
Qed.

Lemma none_or_some {A} (p : A -> bool) (l : list A) :
  Forall (fun x => p x = false) l \/ exists x, x ∈ l /\ p x = true.
Proof.
  induction l as [|y l [IH|(x & Hx & Hpx)]].
  - left. constructor.
  - destruct (p y) eqn:Hy.
    + right. exists y. split; [constructor | exact Hy].
    + left. now constructor.
  - right. exists x. split; [now constructor | exact Hpx].
Qed.

Lemma findIndex_found {A} (p : A -> bool) (l : list A) :
  (Js.findIndex p l >? -1) = true <-> exists x, x ∈ l /\ p x = true.
Proof.
  unfold Js.findIndex. rewrite Z.gtb_gt. split.
  - intros H. destruct (none_or_some p l) as [Hall|Hex]; [|exact Hex].
    apply (findIndex_from_none p l 0) in Hall; lia.
  - intros (x & Hx & Hpx).
    destruct (findIndex_from_range p l 0) as [H|H]; [|lia].
    apply findIndex_from_none in H; [|lia].
    rewrite Forall_forall in H. specialize (H x Hx). congruence.
Qed.

Lemma indexOf_unknown (phases : list string) (x : option string) :
  (forall p, x = Some p -> p ∉ phases) -> Js.indexOf phases x = -1.
Proof.
  intros H. unfold Js.indexOf, Js.findIndex. apply findIndex_from_none; [lia|].
  apply Forall_forall. intros y Hy. apply bool_decide_eq_false.
  intros ->. now apply (H y).
Qed.

Lemma indexOf_known (phases : list string) (q : string) :
  q ∈ phases -> 0 <= Js.indexOf phases (Some q).
Proof.
  intros Hq. unfold Js.indexOf, Js.findIndex.
  destruct (findIndex_from_range (fun y => bool_decide (Some q = Some y)) phases 0)
    as [H|H]; [|lia].
  apply findIndex_from_none in H; [|lia].
  rewrite Forall_forall in H. specialize (H q Hq).
  now apply bool_decide_eq_false in H.
Qed.

(** ** The order of the hooks of a namespace *)

Section PhaseOrder.

Context {World : Type}.
Implicit Types (hook a b : Hook World) (ev event : Qyvent World) (S : Store World).

Lemma hook_before_phase_sorted phases (hooks : list (Hook World)) :
  StronglySorted (hook_before phases) hooks -> phase_sorted phases hooks.
Proof.
  apply StronglySorted_weaken. intros a b [H|[H _]]; lia.
Qed.

Lemma sort_insert_hook_before phases hook (hooks : list (Hook World)) :
  StronglySorted (hook_before phases) hooks ->
  Forall (fun h => (h_ref h < h_ref hook)%nat) hooks ->
  StronglySorted (hook_before phases)
    (Js.sort_insert (phase_cmp phases) hook hooks).
Proof.
  induction 1 as [|y l Hl IH Hy]; intros Hrefs; simpl.
  - repeat constructor.
  - apply Forall_cons in Hrefs as [Hr Hrefs].
    destruct (Z.leb_spec (phase_cmp phases y hook) 0) as [Hc|Hc];
      unfold phase_cmp in Hc.
    + constructor; [now apply IH|]. apply Forall_forall. intros z Hz.
      apply (sort_insert_elem (phase_index phases)) in Hz as [->|Hz].
      * unfold hook_before. lia.
      * now apply (proj1 (Forall_forall _ _) Hy).
    + constructor; [now constructor|]. constructor; [left; lia|].
      apply Forall_forall. intros z Hz.
      pose proof (proj1 (Forall_forall _ _) Hy z Hz) as [Hyz|[Hyz _]]; left; lia.
Qed.

Lemma sort_hook_before phases hook (hooks : list (Hook World)) :
  StronglySorted (hook_before phases) hooks ->
  Forall (fun h => (h_ref h < h_ref hook)%nat) hooks ->
  StronglySorted (hook_before phases)
    (Js.sort (phase_cmp phases) (hooks ++ [hook])).
Proof.
  intros Hs Hrefs.
  pose proof (sort_snoc (phase_index phases) hooks hook) as Hsnoc.
  pose proof (sort_sorted_id (phase_index phases) hooks
                (hook_before_phase_sorted _ _ Hs)) as Hid.
  change (key_cmp (phase_index phases))
    with (phase_cmp (World:=World) phases) in Hsnoc, Hid.
  rewrite Hsnoc, Hid. now apply sort_insert_hook_before.
Qed.

Lemma Qyvent_hook_fields ref pattern cb phase ev :
  let r := Qyvent_hook ref pattern cb phase ev in
  ev_id r.1 = ev_id ev /\ ev_ctx r.1 = ev_ctx ev
  /\ ev_phases r.1 = ev_phases ev /\ ev_main r.1 = ev_main ev
  /\ h_ref r.2 = ref
  /\ ev_hooks r.1 = Js.sort (phase_cmp (ev_phases ev)) (ev_hooks ev ++ [r.2]).
Proof.
  unfold Qyvent_hook. destruct (parse pattern) as [[id name] action]. simpl.
  repeat split.
Qed.

Lemma Qyvent_hook_inv ref pattern cb phase ev :
  StronglySorted (hook_before (ev_phases ev)) (ev_hooks ev) ->
  Forall (fun h => (h_ref h < ref)%nat) (ev_hooks ev) ->
  let ev' := (Qyvent_hook ref pattern cb phase ev).1 in
  StronglySorted (hook_before (ev_phases ev')) (ev_hooks ev')
  /\ Forall (fun h => (h_ref h < Datatypes.S ref)%nat) (ev_hooks ev').
Proof.
  intros Hs Hrefs.
  destruct (Qyvent_hook_fields ref pattern cb phase ev)
    as (_ & _ & Hph & _ & Href & Hhooks).
  simpl. rewrite Hph, Hhooks. split.
  - apply sort_hook_before; [exact Hs|]. now rewrite Href.
  - pose proof (sort_perm (phase_index (ev_phases ev))
                  (ev_hooks ev ++ [(Qyvent_hook ref pattern cb phase ev).2])) as Hp.
    change (key_cmp (phase_index (ev_phases ev)))
      with (phase_cmp (World:=World) (ev_phases ev)) in Hp.
    rewrite Hp. apply Forall_app. split.
    + eapply Forall_impl; [exact Hrefs|]. simpl. lia.
    + constructor; [|constructor]. rewrite Href. lia.
Qed.

Lemma Qyvent_unhook_inv ref ev (n : nat) :
  StronglySorted (hook_before (ev_phases ev)) (ev_hooks ev) ->
  Forall (fun h => (h_ref h < n)%nat) (ev_hooks ev) ->
  let ev' := Qyvent_unhook ref ev in
  StronglySorted (hook_before (ev_phases ev')) (ev_hooks ev')
  /\ Forall (fun h => (h_ref h < n)%nat) (ev_hooks ev').
Proof.
  intros Hs Hrefs. simpl.
  destruct (splice_take (ev_hooks ev) (hooks_indexOf (ev_hooks ev) ref)) as [k ->].
  split; [now apply StronglySorted_take | now apply Forall_take].
Qed.

Lemma Qyvent_new_hooks id phases ctx :
  ev_hooks (Qyvent_new (World:=World) id phases ctx) = [].
Proof.
  unfold Qyvent_new. now destruct (map_phases (default ["main*"] phases) None).
Qed.

Lemma event_hook_Ok S (target : option nat) pattern cb phase S' hd :
  event_hook S target pattern cb phase = Ok (S', hd) ->
  exists (l : nat) (ev : Qyvent World),
    target = Some l /\ objs S !! l = Some ev
    /\ S' = mkStore
              (<[l := (Qyvent_hook (next S) pattern cb phase ev).1]> (objs S))
              (Qyvents S) (Datatypes.S (next S))
    /\ hd = mkHandle l (next S).
Proof.
  unfold event_hook. intros H.
  destruct target as [l|]; [|discriminate].
  destruct (objs S !! l) as [ev|] eqn:He; [|discriminate].
  destruct (Qyvent_hook_fields (next S) pattern cb phase ev)
    as (_ & _ & _ & _ & Href & _).
  exists l, ev.
  destruct (Qyvent_hook (next S) pattern cb phase ev) as [ev' hookObj].
  simpl in Href. injection H as <- <-. rewrite Href.
  repeat split; assumption || reflexivity.
Qed.

Lemma reach_addHook S hs pattern cb phase S' hd :
  reachable S hs -> addHook S pattern cb phase = Ok (S', hd) ->
  reachable S' (hd :: hs).
Proof. intros Hr Ha. eapply reach_hook; [exact Hr | exact Ha]. Qed.

(** Every store that the operations can build keeps, in each namespace
    object, the hooks in phase order and, within a phase, in
    registration order. *)
Lemma reachable_inv S hs : reachable S hs -> store_inv S.
Proof.
  induction 1 as [|S hs id phases ctx _ IH|S hs id _ IH
                  |S hs id pattern cb phase S' hd _ IH Hadd|S hs hd _ IH Hhd];
    intros l ev Hl.
  - simpl in Hl. now rewrite lookup_empty in Hl.
  - simpl in Hl. destruct (decide (next S = l)) as [Heq|Hne].
    + subst l. rewrite lookup_insert_eq in Hl. injection Hl as <-.
      rewrite Qyvent_new_hooks. split; constructor.
    + rewrite lookup_insert_ne in Hl by exact Hne.
      destruct (IH l ev Hl) as [Hs Hr]. split; [exact Hs|].
      eapply Forall_impl; [exact Hr|]. simpl. lia.
  - exact (IH l ev Hl).
  - apply event_hook_Ok in Hadd as (l0 & event & _ & He & -> & _).
    simpl in Hl. destruct (IH l0 event He) as [Hs Hr].
    destruct (decide (l0 = l)) as [Heq|Hne].
    + subst l0. rewrite lookup_insert_eq in Hl. injection Hl as <-.
      now apply Qyvent_hook_inv.
    + rewrite lookup_insert_ne in Hl by exact Hne.
      destruct (IH l ev Hl) as [Hs' Hr']. split; [exact Hs'|].
      eapply Forall_impl; [exact Hr'|]. simpl. lia.
  - simpl in Hl. destruct (decide (hd_event hd = l)) as [Heq|Hne].
    + subst l. rewrite lookup_alter_eq in Hl.
      destruct (objs S !! hd_event hd) as [ev0|] eqn:He; [|discriminate].
      simpl in Hl. injection Hl as <-.
      destruct (IH _ ev0 He) as [Hs Hr]. now apply Qyvent_unhook_inv.
    + rewrite lookup_alter_ne in Hl by exact Hne. exact (IH l ev Hl).
Qed.

Lemma phase_sorted_unknown_first phases (hooks : list (Hook World)) :
  phase_sorted phases hooks -> unknown_first phases hooks.
Proof.
  intros Hs i j a b q Hi Hj Ha Hb Hq.
  assert (phase_index phases a = -1) as Hia
    by (unfold phase_index; now apply indexOf_unknown).
  assert (0 <= phase_index phases b) as Hib
    by (unfold phase_index; rewrite Hb; now apply indexOf_known).
  destruct (lt_eq_lt_dec i j) as [[Hlt|Heq]|Hgt]; [exact Hlt| |].
  - subst j. rewrite Hi in Hj. injection Hj as <-. lia.
  - pose proof (StronglySorted_lookup _ _ _ _ _ _ Hs Hgt Hj Hi) as H.
    simpl in H. lia.
Qed.

Lemma hook_before_registration_ordered phases (hooks : list (Hook World)) :
  StronglySorted (hook_before phases) hooks -> registration_ordered phases hooks.
Proof.
  intros Hs i j a b Hij Hi Hj Heq.
  destruct (StronglySorted_lookup _ _ _ _ _ _ Hs Hij Hi Hj) as [H|[_ H]];
    [lia | exact H].
Qed.

End PhaseOrder.

(** C2. After every [addHook] on a store that the operations have built,
    the hooks of the namespace are sorted by ascending index of their
    phase in the declared phase list, hooks of one phase index stand in
    registration order, and hooks whose phase is not declared (index
    [-1]) stand before the hooks of every declared phase. *)
Theorem addHook_keeps_phase_order {World : Type} (S : Store World)
    (hs : list Handle) (pattern : string) (cb : Callback World)
    (phase : option string) (S' : Store World) (hd : Handle) :
  reachable S hs ->
  addHook S pattern cb phase = Ok (S', hd) ->
  exists event : Qyvent World,
    objs S' !! hd_event hd = Some event
    /\ Qyvents_get S' (Js.split1 pattern !! 0%nat) = Some event
    /\ phase_sorted (ev_phases event) (ev_hooks event)
    /\ registration_ordered (ev_phases event) (ev_hooks event)
    /\ unknown_first (ev_phases event) (ev_hooks event).
Proof.
  intros Hreach Hadd.
  pose proof (reachable_inv _ _ (reach_addHook _ _ _ _ _ _ _ Hreach Hadd)) as Hinv.
  unfold addHook in Hadd.
  apply event_hook_Ok in Hadd as (l & event & Hl & He & -> & ->).
  eexists. simpl. rewrite lookup_insert_eq. split; [reflexivity|].
  split; [unfold Qyvents_get; unfold Qyvents_ref in *; simpl; rewrite Hl; simpl;
          now rewrite lookup_insert_eq|].
  destruct (Hinv l _ (lookup_insert_eq _ _ _)) as [Hs _].
  pose proof (hook_before_phase_sorted _ _ Hs) as Hp.
  split; [exact Hp|]. split.
  - now apply hook_before_registration_ordered.
  - now apply phase_sorted_unknown_first.
Qed.

(** ** Parsing *)

Lemma parse_split (pattern : string) :
  exists (id : string) (rest : list string),
    Js.split pattern = id :: rest
    /\ parse pattern = (Some id, removelast rest, last rest).
Proof.
  pose proof (split_not_nil pattern) as Hne. unfold parse.
  destruct (Js.split pattern) as [|id rest]; [contradiction|].
  exists id, rest. split; reflexivity.
Qed.

Lemma split1_parse (pattern : string) :
  Js.split1 pattern !! 0%nat = (parse pattern).1.1.
Proof.
  destruct (parse_split pattern) as (id & rest & Hs & Hp).
  unfold Js.split1. now rewrite Hs, Hp.
Qed.

(** ** fire *)

Section Fire.

Context {World : Type}.
Implicit Types (hook : Hook World) (event : Qyvent World) (S : Store World)
  (w : World) (c : Ctx).

Lemma fire_unfold S pattern args w :
  fire S pattern args w =
  match Qyvents_get S (parse pattern).1.1 with
  | None => mkRun (Rejected TypeError) [] w
  | Some event =>
      run_hooks
        (fire_hooks event (parse pattern).1.1 (parse pattern).1.2 (parse pattern).2)
        (ctx_new (ev_ctx event) args) args w
  end.
Proof.
  unfold fire, parse. destruct (Js.shift (Js.split pattern)) as [id name].
  reflexivity.
Qed.

(** The two versions of [fire] do the same. *)
Lemma Qyvr_fire_fire S pattern args w :
  Qyvr_fire S pattern args w = fire S pattern args w.
Proof.
  rewrite fire_unfold. unfold Qyvr_fire. rewrite split1_parse.
  destruct (Qyvents_get S (parse pattern).1.1) as [event|]; [|reflexivity].
  now rewrite Qyvent_filter_fire_hooks.
Qed.

Lemma run_hooks_awaited args (pre rest : list (Hook World)) c w c1 w1 :
  awaited args pre c w c1 w1 ->
  run_hooks (pre ++ rest) c args w = called_all pre (run_hooks rest c1 args w1).
Proof.
  induction 1 as [c w|hook hooks c w result c2 w2 c' w' Hcb Hstop _ IH]; simpl.
  - now destruct (run_hooks rest c args w).
  - rewrite Hcb, Hstop, IH. reflexivity.
Qed.

Lemma run_hooks_completes args (hooks : list (Hook World)) c w c' w' :
  awaited args hooks c w c' w' ->
  run_hooks hooks c args w = mkRun (Resolved (c_return c')) hooks w'.
Proof.
  intros H. rewrite <- (app_nil_r hooks) at 1.
  rewrite (run_hooks_awaited _ _ _ _ _ _ _ H). unfold called_all. simpl.
  now rewrite app_nil_r.
Qed.

Lemma run_hooks_stops args (pre post : list (Hook World)) hook c w c1 w1 result c2 w2 :
  awaited args pre c w c1 w1 ->
  h_cb hook w1 c1 args = Fulfilled result c2 w2 ->
  truthy (c_stopped (record_result result c2)) = true ->
  run_hooks (pre ++ hook :: post) c args w
  = mkRun (Resolved (c_return (record_result result c2))) (pre ++ [hook]) w2.
Proof.
  intros H Hcb Hstop. rewrite (run_hooks_awaited _ _ _ _ _ _ _ H). simpl.
  now rewrite Hcb, Hstop.
Qed.

Lemma run_hooks_fails args (pre post : list (Hook World)) hook c w c1 w1 cause c2 w2 :
  awaited args pre c w c1 w1 ->
  h_cb hook w1 c1 args = Failed cause c2 w2 ->
  run_hooks (pre ++ hook :: post) c args w
  = mkRun (Rejected cause) (pre ++ [hook]) w2.
Proof.
  intros H Hcb. rewrite (run_hooks_awaited _ _ _ _ _ _ _ H). simpl.
  now rewrite Hcb.
Qed.

Lemma run_hooks_hangs args (pre post : list (Hook World)) hook c w c1 w1 :
  awaited args pre c w c1 w1 ->
  h_cb hook w1 c1 args = Hangs ->
  run_hooks (pre ++ hook :: post) c args w = mkRun Pending (pre ++ [hook]) w1.
Proof.
  intros H Hcb. rewrite (run_hooks_awaited _ _ _ _ _ _ _ H). simpl.
  now rewrite Hcb.
Qed.

(** Every run is of one of the four kinds: all hooks were awaited, or a
    hook stopped the run, failed, or never settled. *)
Lemma run_hooks_cases args (hooks : list (Hook World)) c w :
  exists (pre : list (Hook World)) c1 w1,
    awaited args pre c w c1 w1
    /\ (hooks = pre
        \/ exists hook post,
             hooks = pre ++ hook :: post
             /\ ((exists result c2 w2,
                    h_cb hook w1 c1 args = Fulfilled result c2 w2
                    /\ truthy (c_stopped (record_result result c2)) = true)
                 \/ (exists cause c2 w2, h_cb hook w1 c1 args = Failed cause c2 w2)
                 \/ h_cb hook w1 c1 args = Hangs)).
Proof.
  revert c w. induction hooks as [|hook hooks IH]; intros c w.
  - exists [], c, w. split; [constructor | now left].
  - destruct (h_cb hook w c args) as [result c2 w2|cause c2 w2|] eqn:Hcb.
    + destruct (truthy (c_stopped (record_result result c2))) eqn:Hstop.
      * exists [], c, w. split; [constructor|]. right. exists hook, hooks.
        split; [reflexivity|]. left. eauto.
      * destruct (IH (record_result result c2) w2) as (pre & c1 & w1 & Ha & Hrest).
        exists (hook :: pre), c1, w1. split; [econstructor; eassumption|].
        destruct Hrest as [->|(h & post & -> & Hh)]; [now left|].
        right. exists h, post. split; [reflexivity | exact Hh].
    + exists [], c, w. split; [constructor|]. right. exists hook, hooks.
      split; [reflexivity|]. right. left. eauto.
    + exists [], c, w. split; [constructor|]. right. exists hook, hooks.
      split; [reflexivity|]. right. now right.
Qed.

(** The hooks that [fire] calls are the first of the selected hooks, in
    their order. *)
Lemma run_hooks_invoked_prefix args (hooks : list (Hook World)) c w :
  invoked (run_hooks hooks c args w) `prefix_of` hooks.
Proof.
  revert c w. induction hooks as [|hook hooks IH]; intros c w; simpl.
  - reflexivity.
  - destruct (h_cb hook w c args) as [result c2 w2|cause c2 w2|]; simpl.
    + destruct (truthy _); simpl.
      * apply prefix_cons, prefix_nil.
      * apply prefix_cons, IH.
    + apply prefix_cons, prefix_nil.
    + apply prefix_cons, prefix_nil.
Qed.

Lemma record_result_return result c :
  c_return (record_result result c)
  = if decide (result = VUndef) then c_return c else result.
Proof. now destruct result. Qed.

Lemma record_result_stopped result c :
  c_stopped (record_result result c) = c_stopped c.
Proof. now destruct result. Qed.

End Fire.

(** C1. [fire] runs the hooks that its filter selects, and for every
    hook stored in the namespace, the filter selects the hook if and
    only if the namespace ids are equal, the actions are equal, the
    name parts have the same length and every name part of the hook is
    [*] or the name part of the fired pattern at the same position;
    [Qyvent.filter] selects the same hooks. A hook with name parts
    [["*"]] is selected exactly for the fired patterns with one name
    part and the same namespace id and action. *)
Theorem fire_selects_matching_hooks {World : Type} (S : Store World)
    (pattern : string) (args : list value) (w : World) (event : Qyvent World) :
  let id := (parse pattern).1.1 in
  let name := (parse pattern).1.2 in
  let action := (parse pattern).2 in
  Qyvents_get S id = Some event ->
  fire S pattern args w
  = run_hooks (fire_hooks event id name action) (ctx_new (ev_ctx event) args) args w
  /\ Qyvr_fire S pattern args w
     = run_hooks (Qyvent_filter event pattern) (ctx_new (ev_ctx event) args) args w
  /\ forall hook : Hook World,
       hook ∈ ev_hooks event ->
       (hook ∈ fire_hooks event id name action <-> spec_match id name action hook)
       /\ (hook ∈ Qyvent_filter event pattern <-> spec_match id name action hook)
       /\ (h_name hook = ["*"] ->
           (hook ∈ fire_hooks event id name action
            <-> h_id hook = id /\ h_action hook = action /\ length name = 1%nat)).
Proof.
  intros id name action Hev.
  assert (forall hook : Hook World, hook ∈ ev_hooks event ->
            (hook ∈ fire_hooks event id name action
             <-> spec_match id name action hook)) as Hsel.
  { intros hook Hin. unfold fire_hooks.
    rewrite list_elem_of_In, filter_In, <- list_elem_of_In, fire_pred_spec.
    tauto. }
  split; [|split].
  - rewrite fire_unfold. fold id name action. now rewrite Hev.
  - unfold Qyvr_fire. rewrite split1_parse. fold id. now rewrite Hev.
  - intros hook Hin. split; [now apply Hsel|]. split.
    + rewrite Qyvent_filter_fire_hooks. now apply Hsel.
    + intros Hstar. rewrite (Hsel hook Hin). unfold spec_match. rewrite Hstar.
      split.
      * intros (Hi & Ha & Hl & _). auto.
      * intros (Hi & Ha & Hl). repeat split; auto.
        intros [|i] part Hp; simpl in Hp; [|discriminate].
        injection Hp as <-. now left.
Qed.

(** C3. [fire] awaits the selected hooks in order and writes every
    result that is not [undefined] to the return slot. When all hooks
    have been awaited it resolves with the return slot. When a hook
    leaves [stopped] truthy, its own result is still recorded, no later
    hook is called and [fire] resolves with the return slot; if that
    hook returned nothing and left the return slot alone, the value
    recorded by the earlier hooks is the resolved value. *)
Theorem fire_return_and_stop {World : Type} (S : Store World)
    (pattern : string) (args : list value) (w : World) (event : Qyvent World) :
  let selected :=
    fire_hooks event (parse pattern).1.1 (parse pattern).1.2 (parse pattern).2 in
  let c0 := ctx_new (ev_ctx event) args in
  Qyvents_get S (parse pattern).1.1 = Some event ->
  invoked (fire S pattern args w) `prefix_of` selected
  /\ (forall result c,
        c_return (record_result result c)
        = if decide (result = VUndef) then c_return c else result)
  /\ (forall c' w',
        awaited args selected c0 w c' w' ->
        fire S pattern args w = mkRun (Resolved (c_return c')) selected w')
  /\ (forall pre hook post c1 w1 result c2 w2,
        selected = pre ++ hook :: post ->
        awaited args pre c0 w c1 w1 ->
        h_cb hook w1 c1 args = Fulfilled result c2 w2 ->
        truthy (c_stopped (record_result result c2)) = true ->
        fire S pattern args w
        = mkRun (Resolved (c_return (record_result result c2))) (pre ++ [hook]) w2)
  /\ (forall pre hook post c1 w1 c2 w2,
        selected = pre ++ hook :: post ->
        awaited args pre c0 w c1 w1 ->
        h_cb hook w1 c1 args = Fulfilled VUndef c2 w2 ->
        c_return c2 = c_return c1 ->
        truthy (c_stopped c2) = true ->
        settled (fire S pattern args w) = Resolved (c_return c1)).
Proof.
  intros selected c0 Hev.
  assert (fire S pattern args w = run_hooks selected c0 args w) as Hfire
    by (rewrite fire_unfold, Hev; reflexivity).
  rewrite Hfire. split; [apply run_hooks_invoked_prefix|].
  split; [apply record_result_return|]. split; [|split].
  - intros c' w' Ha. now apply run_hooks_completes.
  - intros pre hook post c1 w1 result c2 w2 -> Ha Hcb Hstop.
    eapply run_hooks_stops; eassumption.
  - intros pre hook post c1 w1 c2 w2 -> Ha Hcb Hret Hstop.
    rewrite (run_hooks_stops _ _ _ _ _ _ _ _ _ _ _ Ha Hcb Hstop). simpl.
    now rewrite Hret.
Qed.

(** C6, as amended. When the callback of a selected hook throws or its
    promise rejects, no later hook is called and the promise of [fire]
    rejects with the cause itself, not with an error that wraps it; it
    does not resolve, whatever the return slot holds. *)
Theorem fire_rejects_with_cause {World : Type} (S : Store World)
    (pattern : string) (args : list value) (w : World) (event : Qyvent World)
    (pre post : list (Hook World)) (hook : Hook World) (c1 c2 : Ctx)
    (w1 w2 : World) (cause : value) :
  Qyvents_get S (parse pattern).1.1 = Some event ->
  fire_hooks event (parse pattern).1.1 (parse pattern).1.2 (parse pattern).2
  = pre ++ hook :: post ->
  awaited args pre (ctx_new (ev_ctx event) args) w c1 w1 ->
  h_cb hook w1 c1 args = Failed cause c2 w2 ->
  fire S pattern args w = mkRun (Rejected cause) (pre ++ [hook]) w2
  /\ Qyvr_fire S pattern args w = mkRun (Rejected cause) (pre ++ [hook]) w2
  /\ forall v, settled (fire S pattern args w) <> Resolved v.
Proof.
  intros Hev Hsel Ha Hcb.
  assert (fire S pattern args w = mkRun (Rejected cause) (pre ++ [hook]) w2) as Hfire.
  { rewrite fire_unfold, Hev, Hsel. eapply run_hooks_fails; eassumption. }
  split; [exact Hfire|]. split; [now rewrite Qyvr_fire_fire|].
  intros v. rewrite Hfire. discriminate.
Qed.

(** C7. When the namespace id of the pattern is not in the map of
    namespaces, the promise of [fire] rejects, with the error raised by
    reading a property of the missing namespace, and no hook is called;
    registering a hook under such a pattern throws the same error. *)
Theorem missing_namespace_fails {World : Type} (S : Store World)
    (pattern : string) (id : string) (args : list value) (w : World)
    (cb : Callback World) (phase : option string) :
  (parse pattern).1.1 = Some id ->
  Qyvents S !! id = None ->
  fire S pattern args w = mkRun (Rejected TypeError) [] w
  /\ Qyvr_fire S pattern args w = mkRun (Rejected TypeError) [] w
  /\ addHook S pattern cb phase = Throw TypeError.
Proof.
  intros Hid Hnone.
  assert (fire S pattern args w = mkRun (Rejected TypeError) [] w) as Hfire.
  { rewrite fire_unfold, Hid. unfold Qyvents_get, Qyvents_ref. simpl.
    now rewrite Hnone. }
  split; [exact Hfire|]. split; [now rewrite Qyvr_fire_fire|].
  unfold addHook, Qyvents_ref. rewrite split1_parse, Hid. simpl. now rewrite Hnone.
Qed.

(** ** has *)

Section Has.

Context {World : Type}.
Implicit Types (hook : Hook World) (ev event : Qyvent World) (S : Store World).

Lemma has_pred_spec id name action hook :
  has_pred id name action hook = true <-> literal_match id name action hook.
Proof.
  unfold has_pred, literal_match.
  rewrite !andb_true_iff, !bool_decide_eq_true. intuition congruence.
Qed.

Lemma has_found id name action (hooks : list (Hook World)) :
  (Js.findIndex (has_pred id name action) hooks >? -1) = true
  <-> exists hook, hook ∈ hooks /\ literal_match id name action hook.
Proof.
  rewrite findIndex_found. split; intros (hook & Hin & H); exists hook;
    (split; [exact Hin | now apply has_pred_spec]).
Qed.

Lemma Qyvent_has_unfold ev pattern :
  let rest := tail (Js.Set_of (ev_id ev :: Js.split pattern)) in
  Qyvent_has ev pattern
  = (Js.findIndex (has_pred (Some (ev_id ev)) (removelast rest) (last rest))
       (ev_hooks ev) >? -1).
Proof.
  unfold Qyvent_has.
  destruct (Set_of_cons (ev_id ev) (Js.split pattern)) as [rest ->].
  reflexivity.
Qed.

Lemma Qyvent_has_join_Set_of ev pattern :
  Qyvent_has ev pattern = Qyvent_has ev (Js.join (Js.Set_of (Js.split pattern))).
Proof.
  unfold Qyvent_has. now rewrite split_join_Set_of, Set_of_cons_Set_of.
Qed.

Lemma literal_match_same_name id name action hook :
  h_id hook = id -> h_action hook = action -> h_name hook = name ->
  literal_match id name action hook /\ spec_match id name action hook.
Proof.
  intros <- <- <-. split; [repeat split|]. repeat split. intros i part Hi.
  now right.
Qed.

End Has.

(** What the two versions of [has] compute: [has] is true if and only
    if a stored hook equals the pattern literally, with the same
    namespace id, the same action and the same name parts once joined
    with dots; a [*] in a stored hook is compared as a name part like
    any other. In [Qyvr.has] the pattern is the one given, in
    [Qyvent.has] its segments behind the namespace id, without
    repetitions. A stored hook with the name parts of the pattern makes
    [has] true and is selected by [filter]. *)
Theorem has_iff_literal_match {World : Type} (S : Store World)
    (ev : Qyvent World) (pattern : string) :
  let id := (parse pattern).1.1 in
  let name := (parse pattern).1.2 in
  let action := (parse pattern).2 in
  let rest := tail (Js.Set_of (ev_id ev :: Js.split pattern)) in
  (Qyvr_has S pattern = Some true
   <-> exists event hook,
         Qyvents_get S id = Some event /\ hook ∈ ev_hooks event
         /\ literal_match id name action hook)
  /\ (Qyvent_has ev pattern = true
      <-> exists hook,
            hook ∈ ev_hooks ev
            /\ literal_match (Some (ev_id ev)) (removelast rest) (last rest) hook)
  /\ (forall event hook,
        Qyvents_get S id = Some event -> hook ∈ ev_hooks event ->
        h_id hook = id -> h_action hook = action -> h_name hook = name ->
        Qyvr_has S pattern = Some true /\ hook ∈ Qyvent_filter event pattern).
Proof.
  intros id name action rest.
  assert (Qyvr_has S pattern = Some true
          <-> exists event hook,
                Qyvents_get S id = Some event /\ hook ∈ ev_hooks event
                /\ literal_match id name action hook) as Hhas.
  { unfold Qyvr_has. subst id name action.
    destruct (parse pattern) as [[id name] action]. simpl.
    destruct (Qyvents_get S id) as [event|].
    - split.
      + intros [= H]. apply has_found in H as (hook & Hin & Hm). eauto.
      + intros (event' & hook & [= <-] & Hin & Hm). f_equal.
        apply has_found. eauto.
    - split; [discriminate | intros (? & ? & ? & _); discriminate]. }
  split; [exact Hhas|]. split.
  - rewrite Qyvent_has_unfold. apply has_found.
  - intros event hook Hev Hin Hi Ha Hn.
    destruct (literal_match_same_name id name action hook Hi Ha Hn) as [Hl Hs].
    split; [apply Hhas; eauto|].
    rewrite Qyvent_filter_fire_hooks. unfold fire_hooks.
    rewrite list_elem_of_In, filter_In, <- list_elem_of_In. split; [exact Hin|].
    now apply fire_pred_spec.
Qed.

(** C10. In [Qyvent.has] of Qyvr.mjs the segments are the first
    occurrences of the namespace id followed by the segments of the
    pattern, so that no segment stands twice; [has] answers for the
    pattern as for the pattern without its repeated segments; with a hook
    at [ns.a.call], [has('ns.a.a.call')] is true. *)
Theorem Qyvent_has_deduplicates {World : Type} (ev : Qyvent World)
    (pattern : string) :
  let segments := Js.Set_of (ev_id ev :: Js.split pattern) in
  segments = first_occurrences (ev_id ev :: Js.split pattern)
  /\ NoDup segments
  /\ (forall seg, seg ∈ segments <-> seg = ev_id ev \/ seg ∈ Js.split pattern)
  /\ (Qyvent_has ev pattern = true
      <-> exists hook,
            hook ∈ ev_hooks ev
            /\ literal_match (Some (ev_id ev)) (removelast (tail segments))
                 (last (tail segments)) hook)
  /\ Qyvent_has ev pattern
     = Qyvent_has ev (Js.join (Js.Set_of (Js.split pattern)))
  /\ (forall hook,
        ev_id ev = "ns" -> hook ∈ ev_hooks ev ->
        h_id hook = Some "ns" -> h_name hook = ["a"] ->
        h_action hook = Some "call" ->
        Qyvent_has ev "ns.a.a.call" = true).
Proof.
  intros segments. split; [apply Set_of_first_occurrences|].
  split; [subst segments; rewrite Set_of_first_occurrences;
          apply first_occurrences_NoDup|].
  split; [intros seg; subst segments;
          now rewrite Set_of_first_occurrences, first_occurrences_elem,
            elem_of_cons|].
  split; [rewrite Qyvent_has_unfold; apply has_found|].
  split; [apply Qyvent_has_join_Set_of|].
  intros hook Hns Hin Hi Hn Ha. rewrite Qyvent_has_unfold, Hns.
  apply has_found. exists hook. split; [exact Hin|].
  unfold literal_match. rewrite Hi, Hn, Ha. vm_compute. auto.
Qed.

(** ** The constructor *)

Lemma map_phases_spec (phases : list string) (main : option string) :
  map_phases phases main
  = (map strip_marker phases,
     match last (map Js.slice_0_m1 (List.filter Js.endsWith_star phases)) with
     | Some m => Some m
     | None => main
     end).
Proof.
  revert main. induction phases as [|phase phases IH]; intros main; simpl;
    [reflexivity|].
  unfold strip_marker at 1. destruct (Js.endsWith_star phase); rewrite IH.
  - simpl map. rewrite last_cons. now destruct (last _).
  - reflexivity.
Qed.

Lemma Qyvent_new_fields {World : Type} id phases ctx :
  let ev := Qyvent_new (World:=World) id phases ctx in
  let declared := default ["main*"] phases in
  ev_id ev = id /\ ev_ctx ev = default ∅ ctx /\ ev_hooks ev = []
  /\ ev_phases ev = map strip_marker declared
  /\ ev_main ev
     = last (map Js.slice_0_m1 (List.filter Js.endsWith_star declared)).
Proof.
  unfold Qyvent_new. rewrite map_phases_spec. simpl.
  repeat split. now destruct (last _).
Qed.

(** C8, as amended. The constructor stores every phase name without its
    marker; the default phase is the name, without the marker, of the
    last declared phase that carries one, and it stays undefined when no
    declared phase carries the marker. *)
Theorem default_phase_is_marked_phase {World : Type} (id : string)
    (phases : list string) (ctx : option (gmap string value)) :
  let ev := Qyvent_new (World:=World) id (Some phases) ctx in
  ev_phases ev = map strip_marker phases
  /\ ev_main ev
     = last (map Js.slice_0_m1 (List.filter Js.endsWith_star phases))
  /\ (forall before phase after,
        phases = before ++ phase :: after ->
        Js.endsWith_star phase = true ->
        Forall (fun p => Js.endsWith_star p = false) after ->
        ev_main ev = Some (Js.slice_0_m1 phase))
  /\ (Forall (fun p => Js.endsWith_star p = false) phases ->
      ev_main ev = None).
Proof.
  intros ev.
  destruct (Qyvent_new_fields (World:=World) id (Some phases) ctx)
    as (_ & _ & _ & Hp & Hm).
  fold ev in Hp, Hm. simpl in Hp, Hm.
  assert (forall l, Forall (fun p => Js.endsWith_star p = false) l ->
                    List.filter Js.endsWith_star l = []) as Hnone.
  { induction 1 as [|p l Hp' _ IH]; simpl; [reflexivity|]. now rewrite Hp'. }
  split; [exact Hp|]. split; [exact Hm|]. split.
  - intros before phase after -> Hstar Hafter. rewrite Hm, List.filter_app.
    simpl. rewrite Hstar, (Hnone _ Hafter), map_app. simpl.
    now rewrite last_snoc.
  - intros Hall. now rewrite Hm, (Hnone _ Hall).
Qed.

(** ** Patterns with a single segment *)

Lemma parse_short (pattern : string) :
  (length (Js.split pattern) < 2)%nat -> parse pattern = (Some pattern, [], None).
Proof. intros H. unfold parse. now rewrite (split_short _ H). Qed.

(** C9, as amended. A pattern with fewer than two segments is not
    refused: it parses to the namespace id that is the whole pattern, no
    name parts and no action; where the namespace exists, [addHook]
    stores a hook of that shape, [fire] runs the hooks it selects for
    that shape, and [has] answers. *)
Theorem short_pattern_is_accepted {World : Type} (S : Store World)
    (pattern : string) (cb : Callback World) (phase : option string)
    (args : list value) (w : World) (l : nat) (event : Qyvent World) :
  (length (Js.split pattern) < 2)%nat ->
  Qyvents S !! pattern = Some l ->
  objs S !! l = Some event ->
  parse pattern = (Some pattern, [], None)
  /\ (exists S' hd event' hook,
        addHook S pattern cb phase = Ok (S', hd)
        /\ objs S' !! l = Some event' /\ hook ∈ ev_hooks event'
        /\ h_ref hook = hd_hook hd /\ h_id hook = Some pattern
        /\ h_name hook = [] /\ h_action hook = None)
  /\ fire S pattern args w
     = run_hooks (fire_hooks event (Some pattern) [] None)
         (ctx_new (ev_ctx event) args) args w
  /\ Qyvr_has S pattern
     = Some (Js.findIndex (has_pred (Some pattern) [] None) (ev_hooks event) >? -1).
Proof.
  intros Hshort Hl He. pose proof (parse_short _ Hshort) as Hp.
  assert (Qyvents_get S (Some pattern) = Some event) as Hget
    by (unfold Qyvents_get, Qyvents_ref; simpl; rewrite Hl; exact He).
  split; [exact Hp|]. split; [|split].
  - unfold addHook, event_hook, Qyvents_ref. rewrite split1_parse, Hp. simpl.
    rewrite Hl. simpl. rewrite He.
    destruct (Qyvent_hook_fields (next S) pattern cb phase event)
      as (_ & _ & _ & _ & Href & Hhooks).
    assert (h_id (Qyvent_hook (next S) pattern cb phase event).2 = Some pattern
            /\ h_name (Qyvent_hook (next S) pattern cb phase event).2 = []
            /\ h_action (Qyvent_hook (next S) pattern cb phase event).2 = None)
      as Hshape by (unfold Qyvent_hook; rewrite Hp; auto).
    destruct (Qyvent_hook (next S) pattern cb phase event) as [event' hookObj].
    simpl in *. do 2 eexists. exists event', hookObj.
    split; [reflexivity|]. simpl. rewrite lookup_insert_eq.
    split; [reflexivity|]. split; [|tauto].
    rewrite Hhooks.
    pose proof (sort_perm (phase_index (ev_phases event))
                  (ev_hooks event ++ [hookObj])) as Hperm.
    rewrite Hperm, elem_of_app, list_elem_of_singleton. now right.
  - rewrite fire_unfold, Hp. simpl. now rewrite Hget.
  - unfold Qyvr_has. rewrite Hp. now rewrite Hget.
Qed.

(** ** Unregistering *)

Lemma hooks_indexOf_found {World : Type} (pre post : list (Hook World))
    (hook : Hook World) :
  Forall (fun h => h_ref h <> h_ref hook) pre ->
  hooks_indexOf (pre ++ hook :: post) (h_ref hook) = Z.of_nat (length pre).
Proof.
  unfold hooks_indexOf, Js.findIndex. intros Hpre.
  assert (forall i, Js.findIndex_from (fun h => Nat.eqb (h_ref h) (h_ref hook))
                      (pre ++ hook :: post) i = i + Z.of_nat (length pre)) as H.
  { induction Hpre as [|y pre Hy _ IH]; intros i; simpl.
    - rewrite Nat.eqb_refl. lia.
    - destruct (Nat.eqb_spec (h_ref y) (h_ref hook)); [contradiction|].
      rewrite IH. lia. }
  rewrite H. lia.
Qed.

(** The closure returned by [hook] removes its hook and every hook that
    stands behind it. *)
Lemma Qyvent_unhook_truncates {World : Type} (ev : Qyvent World)
    (pre post : list (Hook World)) (hook : Hook World) :
  ev_hooks ev = pre ++ hook :: post ->
  Forall (fun h => h_ref h <> h_ref hook) pre ->
  ev_hooks (Qyvent_unhook (h_ref hook) ev) = pre.
Proof.
  intros Hhooks Hpre. unfold Qyvent_unhook. simpl.
  rewrite Hhooks, (hooks_indexOf_found _ _ _ Hpre). unfold Js.splice.
  rewrite length_app. simpl.
  destruct (Z.ltb_spec (Z.of_nat (length pre)) 0) as [Hneg|_]; [lia|].
  rewrite Z.min_l by lia. rewrite Nat2Z.id. apply take_app_length.
Qed.

(** C4. With hooks registered at [ns.a.call], [ns.b.call] and
    [ns.c.call], calling the closure that registering [ns.b.call]
    returned leaves only the hook at [ns.a.call]: the hook at
    [ns.c.call], registered later, is removed as well. *)
Theorem remove_b_removes_c :
  addHook Scenario.S_a "ns.b.call" (Scenario.cb_return (VStr "b")) None
  = Ok (Scenario.S_ab, Scenario.remove_b)
  /\ map h_name (ev_hooks (Scenario.event_of Scenario.S_abc))
     = [["a"]; ["b"]; ["c"]]
  /\ map h_name (ev_hooks (Scenario.event_of
                             (unhook Scenario.S_abc Scenario.remove_b)))
     = [["a"]].
Proof. repeat split. Qed.

(** The closure returned by [propertyHook] calls both closures: the
    first removes getter and setter, the second then finds nothing and
    removes the last hook that is left, one that was registered
    before. *)
Lemma unhook_property_removes_earlier_hook :
  propertyHook Scenario.S_x "ns.p" None None
  = Ok (Scenario.S_xp, Scenario.remove_p)
  /\ map h_name (ev_hooks (Scenario.event_of Scenario.S_xp))
     = [["x"]; ["p"]; ["p"]]
  /\ ev_hooks (Scenario.event_of
                 (unhook_property Scenario.S_xp Scenario.remove_p)) = [].
Proof. repeat split. Qed.

(** ** Scenarios of the claims *)

Section Witnesses.

Import Scenario.

Example fire_runs_phases_in_order :
  map h_phase (invoked (fire S_phases "sys.login.call" [] tt))
  = [Some "pre"; Some "main"; Some "post"]
  /\ settled (fire S_phases "sys.login.call" [] tt) = Resolved (VStr "post").
Proof. split; reflexivity. Qed.

Example fire_login :
  settled (fire S_login "sys.login.call" [VStr "admin"; VStr "1234"] tt)
  = Resolved (VBool true)
  /\ settled (fire S_login "sys.login.call" [VStr "guest"; VStr "x"] tt)
     = Resolved (VBool false).
Proof. split; reflexivity. Qed.

Example fire_wildcard_length :
  invoked (Qyvr_fire S_wild "ns.node1.call" [] tt) = [nth_hook S_wild 0]
  /\ invoked (Qyvr_fire S_wild "ns.node1.sub.call" [] tt) = []
  /\ invoked (Qyvr_fire S_wild "ns.call" [] tt) = [].
Proof. repeat split. Qed.

(** A wildcard hook is selected for [ns.a.call]. *)
Lemma fire_selects_matching_hooks_witness :
  Qyvents_get S_wild (parse "ns.a.call").1.1 = Some (event_of S_wild)
  /\ nth_hook S_wild 0 ∈ fire_hooks (event_of S_wild) (Some "ns") ["a"] (Some "call").
Proof.
  split; [reflexivity|].
  destruct (fire_selects_matching_hooks S_wild "ns.a.call" [] tt
              (event_of S_wild) eq_refl) as (_ & _ & H).
  destruct (H (nth_hook S_wild 0)) as (_ & _ & Hstar); [constructor|].
  apply Hstar; repeat split.
Defined.

(** Hooks registered into [post], [pre], [main] stand in the order
    [pre], [main], [post]. *)
Lemma addHook_keeps_phase_order_witness :
  reachable S_post_pre [mkHandle 0 2; mkHandle 0 1]
  /\ addHook S_post_pre "sys.login.call" (cb_return (VStr "main")) None
     = Ok (S_phases, mkHandle 0 3)
  /\ exists event : Qyvent unit,
       objs S_phases !! hd_event (mkHandle 0 3) = Some event
       /\ Qyvents_get S_phases (Js.split1 "sys.login.call" !! 0%nat) = Some event
       /\ phase_sorted (ev_phases event) (ev_hooks event)
       /\ registration_ordered (ev_phases event) (ev_hooks event)
       /\ unknown_first (ev_phases event) (ev_hooks event).
Proof.
  assert (reachable S_post_pre [mkHandle 0 2; mkHandle 0 1]) as Hreach.
  { apply (reach_addHook S_post [mkHandle 0 1] "sys.login.call"
             (cb_return (VStr "pre")) (Some "pre") S_post_pre (mkHandle 0 2));
      [|reflexivity].
    apply (reach_addHook S_sys [] "sys.login.call"
             (cb_return (VStr "post")) (Some "post") S_post (mkHandle 0 1));
      [|reflexivity].
    exact (reach_addEvent store_empty [] "sys" _ _ reach_empty). }
  split; [exact Hreach|]. split; [reflexivity|].
  apply (addHook_keeps_phase_order S_post_pre _ "sys.login.call"
           (cb_return (VStr "main")) None S_phases (mkHandle 0 3) Hreach).
  reflexivity.
Defined.

(** A hook returns [early], the next one stops without returning: the
    third is not called and [fire] resolves with [early]. *)
Lemma fire_return_and_stop_witness :
  Qyvents_get S_stop (parse "ns.a.call").1.1 = Some (event_of S_stop)
  /\ fire S_stop "ns.a.call" [] tt
     = mkRun (Resolved (VStr "early")) [nth_hook S_stop 0; nth_hook S_stop 1] tt.
Proof.
  split; [reflexivity|].
  destruct (fire_return_and_stop S_stop "ns.a.call" [] tt
              (event_of S_stop) eq_refl) as (_ & _ & _ & H & _).
  apply (H [nth_hook S_stop 0] (nth_hook S_stop 1) [nth_hook S_stop 2]
           (mkCtx ∅ [] (VStr "early") VUndef) tt VUndef
           (mkCtx ∅ [] (VStr "early") (VBool true)) tt).
  - reflexivity.
  - eapply awaited_cons; [reflexivity | reflexivity | apply awaited_nil].
  - reflexivity.
  - reflexivity.
Defined.

(** A hook returns [early], the next one throws [boom]: the third is not
    called and [fire] rejects with [boom]. *)
Lemma fire_rejects_with_cause_witness :
  Qyvents_get S_throw (parse "ns.a.call").1.1 = Some (event_of S_throw)
  /\ fire S_throw "ns.a.call" [] tt
     = mkRun (Rejected (VStr "boom")) [nth_hook S_throw 0; nth_hook S_throw 1] tt.
Proof.
  split; [reflexivity|].
  apply (fire_rejects_with_cause S_throw "ns.a.call" [] tt (event_of S_throw)
           [nth_hook S_throw 0] [nth_hook S_throw 2] (nth_hook S_throw 1)
           (mkCtx ∅ [] (VStr "early") VUndef)
           (mkCtx ∅ [] (VStr "early") VUndef) tt tt (VStr "boom")).
  - reflexivity.
  - reflexivity.
  - eapply awaited_cons; [reflexivity | reflexivity | apply awaited_nil].
  - reflexivity.
Defined.

(** [fire('unknown_ns.a.b')] rejects. *)
Lemma missing_namespace_fails_witness :
  (parse "unknown_ns.a.b").1.1 = Some "unknown_ns"
  /\ Qyvents S_ns !! "unknown_ns" = None
  /\ fire S_ns "unknown_ns.a.b" [] tt = mkRun (Rejected TypeError) [] tt
  /\ addHook S_ns "unknown_ns.a.b" (cb_return VUndef) None = Throw TypeError.
Proof.
  split; [reflexivity|]. split; [reflexivity|].
  destruct (missing_namespace_fails S_ns "unknown_ns.a.b" "unknown_ns" [] tt
              (cb_return VUndef) None eq_refl eq_refl) as (Hf & _ & Ha).
  split; [exact Hf | exact Ha].
Defined.

(** [addHook('ns', cb)] registers a hook without name parts and without
    action. *)
Lemma short_pattern_is_accepted_witness :
  (length (Js.split "ns") < 2)%nat
  /\ Qyvents S_ns !! "ns" = Some 0%nat
  /\ objs S_ns !! 0%nat = Some (event_of S_ns)
  /\ parse "ns" = (Some "ns", [], None)
  /\ exists S' hd event' hook,
       addHook S_ns "ns" (cb_return VUndef) None = Ok (S', hd)
       /\ objs S' !! 0%nat = Some event' /\ hook ∈ ev_hooks event'
       /\ h_ref hook = hd_hook hd /\ h_id hook = Some "ns"
       /\ h_name hook = [] /\ h_action hook = None.
Proof.
  split; [simpl; lia|]. split; [reflexivity|]. split; [reflexivity|].
  destruct (short_pattern_is_accepted S_ns "ns" (cb_return VUndef) None [] tt
              0%nat (event_of S_ns)) as (Hp & Ha & _).
  - simpl. lia.
  - reflexivity.
  - reflexivity.
  - split; [exact Hp | exact Ha].
Defined.

(** With a hook at [ns.a.call], [has('ns.a.a.call')] is true, though no
    hook has the name parts [a], [a]. *)
Lemma Qyvent_has_deduplicates_witness :
  Qyvent_has (event_of S_a) "ns.a.a.call" = true
  /\ Forall (fun hook => h_name hook <> ["a"; "a"]) (ev_hooks (event_of S_a)).
Proof.
  split.
  - destruct (Qyvent_has_deduplicates (event_of S_a) "ns.a.a.call")
      as (_ & _ & _ & _ & _ & H).
    apply (H (nth_hook S_a 0)); try reflexivity. constructor.
  - repeat constructor. discriminate.
Defined.

(** C5. [has] does not answer as [filter] selects. With a hook at
    [ns.*.call], both versions of [has] are false for [ns.a.call] while
    [filter] selects the hook; with a hook at [ns.call], [Qyvr.has] is
    true for [ns..call] while [filter] selects nothing; with a hook at
    [ns.a.call], [Qyvent.has] is true for [ns.a.a.call] while [filter]
    selects nothing. *)
Theorem has_disagrees_with_filter :
  (Qyvr_has S_wild "ns.a.call" = Some false
   /\ Qyvent_has (event_of S_wild) "ns.a.call" = false
   /\ Qyvent_filter (event_of S_wild) "ns.a.call" = [nth_hook S_wild 0])
  /\ (Qyvr_has S_call "ns..call" = Some true
      /\ Qyvent_filter (event_of S_call) "ns..call" = [])
  /\ (Qyvent_has (event_of S_a) "ns.a.a.call" = true
      /\ Qyvent_filter (event_of S_a) "ns.a.a.call" = []).
Proof. repeat split. Qed.

(** With a wildcard hook, [has('ns.a.call')] is false while [filter]
    selects the hook; with a hook at [ns.call], [has('ns..call')] is
    true while [filter] selects nothing. *)
Lemma has_is_not_filter_nonempty :
  ~ (Qyvr_has S_wild "ns.a.call" = Some true
     <-> Qyvent_filter (event_of S_wild) "ns.a.call" <> [])
  /\ ~ (Qyvent_has (event_of S_wild) "ns.a.call" = true
        <-> Qyvent_filter (event_of S_wild) "ns.a.call" <> [])
  /\ ~ (Qyvr_has S_call "ns..call" = Some true
        <-> Qyvent_filter (event_of S_call) "ns..call" <> []).
Proof.
  split; [|split].
  - intros [_ H]. assert (Qyvr_has S_wild "ns.a.call" = Some true) as Hhas
      by (apply H; discriminate).
    discriminate Hhas.
  - intros [_ H]. assert (Qyvent_has (event_of S_wild) "ns.a.call" = true) as Hhas
      by (apply H; discriminate).
    discriminate Hhas.
  - intros [H _]. now apply H.
Qed.

(** A hook throws the string [boom]: [fire] rejects with that string,
    which is no error that wraps it. *)
Lemma fire_rejection_is_not_wrapped :
  settled (fire S_throw "ns.a.call" [] tt) = Rejected (VStr "boom")
  /\ ~ (exists e, settled (fire S_throw "ns.a.call" [] tt) = Rejected e
                  /\ wraps e (VStr "boom")).
Proof.
  split; [reflexivity|]. intros (e & He & name & Hw).
  change (Rejected (VStr "boom") = Rejected e) in He.
  injection He as <-. discriminate Hw.
Qed.

(** With the phases [pre] and [post], none marked, the default phase is
    undefined and not [pre]. *)
Lemma unmarked_phases_leave_default_undefined :
  ev_main (Qyvent_new (World:=unit) "ns" (Some ["pre"; "post"]) None) = None
  /\ ~ is_Some (ev_main (Qyvent_new (World:=unit) "ns" (Some ["pre"; "post"]) None)).
Proof.
  split; [reflexivity|]. intros [m Hm]. discriminate Hm.
Qed.

(** [addHook('ns', cb)] does not throw, and [fire('ns')] then calls the
    hook and resolves. *)
Lemma single_segment_pattern_is_not_refused :
  ~ (exists e, addHook S_ns "ns" (cb_return (VStr "done")) None = Throw e)
  /\ settled (fire (hooked S_ns "ns" (cb_return (VStr "done")) None) "ns" [] tt)
     = Resolved (VStr "done").
Proof.
  split; [|reflexivity]. intros [e He]. discriminate He.
Qed.

End Witnesses.

(** ** Round trips of patterns *)

Lemma join_cons_cons (x y : string) (a : list string) :
  Js.join (x :: y :: a) = x +:+ "." +:+ Js.join (y :: a).
Proof. reflexivity. Qed.

(** Joining what was split gives the string back. *)
Lemma join_split (s : string) : Js.join (Js.split s) = s.
Proof.
  induction s as [|c s IH]; [reflexivity|].
  pose proof (split_not_nil s) as Hne. simpl.
  destruct (Js.split s) as [|seg segs]; [contradiction|].
  destruct (Ascii.eqb_spec c ".") as [->|_].
  - rewrite join_cons_cons, IH. reflexivity.
  - destruct segs as [|seg' segs].
    + simpl in *. now rewrite IH.
    + rewrite join_cons_cons in *. rewrite <- IH. reflexivity.
Qed.

Lemma last_removelast {A} (l : list A) (x : A) :
  last l = Some x -> removelast l ++ [x] = l.
Proof.
  intros H. apply last_Some in H as [l' ->].
  now rewrite removelast_last.
Qed.

Lemma parse_parts_join (pattern : string) :
  exists id : string,
    (parse pattern).1.1 = Some id
    /\ Js.join (id :: (parse pattern).1.2 ++ option_list (parse pattern).2)
       = pattern.
Proof.
  destruct (parse_split pattern) as (id & rest & Hs & Hp).
  exists id. rewrite Hp. simpl. split; [reflexivity|].
  transitivity (Js.join (Js.split pattern)); [|apply join_split].
  rewrite Hs.
  assert (removelast rest ++ option_list (last rest) = rest) as ->;
    [|reflexivity].
  destruct (last rest) as [action|] eqn:Hl; simpl.
  - now apply last_removelast.
  - apply last_None in Hl. subst rest. reflexivity.
Qed.

(** X1. The three parts that [hook], [filter] and [fire] take from a
    pattern give the pattern back when they are joined with dots: the
    namespace id, the name parts and, where the pattern has more than
    one segment, the action. Patterns with the same parts are the same
    pattern. *)
Theorem parse_join (pattern : string) :
  (exists id : string,
     (parse pattern).1.1 = Some id
     /\ Js.join (id :: (parse pattern).1.2 ++ option_list (parse pattern).2)
        = pattern)
  /\ forall q : string, parse q = parse pattern -> q = pattern.
Proof.
  split; [apply parse_parts_join|].
  intros q H. destruct (parse_parts_join pattern) as (i & Hi & Hp).
  destruct (parse_parts_join q) as (k & Hk & Hq).
  rewrite <- Hp, <- Hq. rewrite H in Hk |- *. congruence.
Qed.

(** ** Well-formed stores *)

Section WellFormed.

Context {World : Type}.
Implicit Types (hook : Hook World) (ev : Qyvent World) (S : Store World).

Lemma parse_name_dotfree (pattern : string) :
  Forall (fun seg => dotfree seg = true) (parse pattern).1.2.
Proof.
  destruct (parse_split pattern) as (id & rest & Hs & ->). simpl.
  pose proof (split_dotfree pattern) as H. rewrite Hs in H.
  apply Forall_cons in H as [_ H].
  rewrite Forall_forall in *. intros seg Hseg. apply H.
  clear -Hseg. induction rest as [|x [|y rest] IH]; simpl in *.
  - inversion Hseg.
  - inversion Hseg.
  - apply elem_of_cons in Hseg as [->|Hseg]; [left | right; now apply IH].
Qed.

Lemma Qyvent_hook_new_hook ref pattern cb phase ev :
  (Qyvent_hook ref pattern cb phase ev).2
  = mkHook ref (parse pattern).1.1 (parse pattern).1.2 (parse pattern).2 cb
      (match phase with Some p => Some p | None => ev_main ev end).
Proof.
  unfold Qyvent_hook. now destruct (parse pattern) as [[id name] action].
Qed.

Lemma Qyvent_hook_perm ref pattern cb phase ev :
  Permutation (ev_hooks (Qyvent_hook ref pattern cb phase ev).1)
    (ev_hooks ev ++ [(Qyvent_hook ref pattern cb phase ev).2]).
Proof.
  destruct (Qyvent_hook_fields ref pattern cb phase ev)
    as (_ & _ & _ & _ & _ & ->).
  apply (sort_perm (phase_index (ev_phases ev))).
Qed.

Lemma Qyvent_unhook_take ref ev :
  exists n : nat,
    Qyvent_unhook ref ev
    = mkQyvent (ev_id ev) (ev_ctx ev) (ev_phases ev) (ev_main ev)
        (take n (ev_hooks ev)).
Proof.
  unfold Qyvent_unhook.
  destruct (splice_take (ev_hooks ev) (hooks_indexOf (ev_hooks ev) ref)) as [n ->].
  now exists n.
Qed.

Lemma reachable_wf S hs :
  reachable S hs ->
  store_wf S /\ Forall (fun hd => is_Some (objs S !! hd_event hd)) hs.
Proof.
  intros Hreach. pose proof (reachable_inv _ _ Hreach) as Hinv. revert Hinv.
  induction Hreach as [|S hs id phases ctx Hr IH|S hs id Hr IH
                  |S hs id pattern cb phase S' hd Hr IH Hadd|S hs hd Hr IH Hhd];
    intros Hinv.
  - split; [split|constructor].
    + intros id l H. simpl in H. now rewrite lookup_empty in H.
    + intros l ev H. simpl in H. now rewrite lookup_empty in H.
  - destruct (IH (reachable_inv _ _ Hr)) as [[Hids Hobjs] Hhs].
    split; [split|].
    + intros id' l Hl. simpl in *.
      destruct (decide (id = id')) as [<-|Hne].
      * rewrite lookup_insert_eq in Hl. injection Hl as <-.
        rewrite lookup_insert_eq. eexists. split; [reflexivity|].
        apply (Qyvent_new_fields (World:=World)).
      * rewrite lookup_insert_ne in Hl by exact Hne.
        destruct (Hids id' l Hl) as (ev & Hev & Hid).
        exists ev. split; [|exact Hid].
        rewrite lookup_insert_ne; [exact Hev|].
        destruct (Hobjs l ev Hev) as [Hlt _]. lia.
    + intros l ev Hl. simpl in *.
      destruct (decide (next S = l)) as [<-|Hne].
      * rewrite lookup_insert_eq in Hl. injection Hl as <-.
        rewrite Qyvent_new_hooks. split; [lia|]. split; constructor.
      * rewrite lookup_insert_ne in Hl by exact Hne.
        destruct (Hobjs l ev Hl) as (Hlt & Hnd & Hdf). split; [lia|]. now split.
    + eapply Forall_impl; [exact Hhs|]. intros hd' [ev Hev]. simpl.
      rewrite lookup_insert_ne; [eauto|].
      destruct (Hobjs _ ev Hev) as [Hlt _]. lia.
  - destruct (IH (reachable_inv _ _ Hr)) as [[Hids Hobjs] Hhs].
    split; [split|].
    + intros id' l Hl. simpl in *.
      apply lookup_delete_Some in Hl as [_ Hl]. now apply Hids.
    + exact Hobjs.
    + exact Hhs.
  - destruct (IH (reachable_inv _ _ Hr)) as [[Hids Hobjs] Hhs].
    apply event_hook_Ok in Hadd as (l0 & ev0 & _ & He & -> & ->).
    destruct (Qyvent_hook_fields (next S) pattern cb phase ev0)
      as (Hid0 & _ & _ & _ & Href & _).
    split; [split|].
    + intros id' l Hl. simpl in *. destruct (Hids id' l Hl) as (ev & Hev & Hid).
      destruct (decide (l0 = l)) as [<-|Hne].
      * rewrite lookup_insert_eq. eexists. split; [reflexivity|].
        rewrite Hid0. congruence.
      * rewrite lookup_insert_ne by exact Hne. eauto.
    + intros l ev Hl. simpl in *.
      destruct (decide (l0 = l)) as [<-|Hne].
      * rewrite lookup_insert_eq in Hl. injection Hl as <-.
        destruct (Hobjs l0 ev0 He) as (Hlt & Hnd & Hdf).
        destruct (reachable_inv _ _ Hr l0 ev0 He) as [_ Hrefs].
        split; [lia|].
        pose proof (Qyvent_hook_perm (next S) pattern cb phase ev0) as Hperm.
        split.
        -- rewrite Hperm, map_app. apply NoDup_app. split; [exact Hnd|].
           split; [|repeat constructor; apply not_elem_of_nil].
           intros r Hr1 Hr2. simpl in Hr2. apply list_elem_of_singleton in Hr2.
           apply list_elem_of_fmap in Hr1 as (h & -> & Hh).
           rewrite Forall_forall in Hrefs. specialize (Hrefs h Hh). lia.
        -- rewrite Hperm. apply Forall_app. split; [exact Hdf|].
           constructor; [|constructor].
           rewrite Qyvent_hook_new_hook. simpl. apply parse_name_dotfree.
      * rewrite lookup_insert_ne in Hl by exact Hne.
        destruct (Hobjs l ev Hl) as (Hlt & Hnd & Hdf). split; [lia|]. now split.
    + constructor.
      * simpl. rewrite lookup_insert_eq. eauto.
      * eapply Forall_impl; [exact Hhs|]. intros hd' [ev Hev]. simpl.
        destruct (decide (l0 = hd_event hd')) as [<-|Hne].
        -- rewrite lookup_insert_eq. eauto.
        -- rewrite lookup_insert_ne by exact Hne. eauto.
  - destruct (IH (reachable_inv _ _ Hr)) as [[Hids Hobjs] Hhs].
    assert (forall l ev, objs (unhook S hd) !! l = Some ev ->
              exists ev0 n, objs S !! l = Some ev0 /\ ev_id ev = ev_id ev0
                /\ ev_hooks ev = take n (ev_hooks ev0)) as Hun.
    { intros l ev Hl. simpl in Hl.
      destruct (decide (hd_event hd = l)) as [<-|Hne].
      - rewrite lookup_alter_eq in Hl.
        destruct (objs S !! hd_event hd) as [ev0|]; [|discriminate].
        simpl in Hl. injection Hl as <-.
        destruct (Qyvent_unhook_take (hd_hook hd) ev0) as [n ->].
        exists ev0, n. auto.
      - rewrite lookup_alter_ne in Hl by exact Hne.
        exists ev, (length (ev_hooks ev)). rewrite firstn_all. auto. }
    split; [split|].
    + intros id' l Hl. simpl in *. destruct (Hids id' l Hl) as (ev & Hev & Hid).
      destruct (decide (hd_event hd = l)) as [<-|Hne].
      * rewrite lookup_alter_eq, Hev. simpl. eexists. split; [reflexivity|].
        exact Hid.
      * rewrite lookup_alter_ne by exact Hne. eauto.
    + intros l ev Hl. destruct (Hun l ev Hl) as (ev0 & n & Hev0 & _ & Hhooks).
      destruct (Hobjs l ev0 Hev0) as (Hlt & Hnd & Hdf). rewrite Hhooks.
      split; [exact Hlt|]. split.
      * rewrite <- firstn_map.
        apply (sublist_NoDup _ (map h_ref (ev_hooks ev0)));
          first [exact Hnd | apply sublist_take].
      * now apply Forall_take.
    + eapply Forall_impl; [exact Hhs|]. intros hd' [ev Hev]. simpl.
      destruct (decide (hd_event hd = hd_event hd')) as [Heq|Hne].
      * rewrite Heq, lookup_alter_eq, Hev. simpl. eauto.
      * rewrite lookup_alter_ne by exact Hne. eauto.
Qed.

End WellFormed.

(** The invariants that every store built by the operations keeps. *)

(** X2. In every store that the operations can build, each registered
    namespace id leads to a namespace object that carries this id, the
    references of the hooks of a namespace are pairwise distinct and
    below the counter of the store, the name parts of the hooks contain
    no dot, and every unregister closure handed out still has its
    namespace object. *)
Theorem reachable_stores_are_well_formed {World : Type} (S : Store World)
    (hs : list Handle) :
  reachable S hs ->
  store_wf S
  /\ Forall (fun hd => is_Some (objs S !! hd_event hd)) hs
  /\ forall l ev, objs S !! l = Some ev ->
       Forall (fun h => (h_ref h < next S)%nat) (ev_hooks ev).
Proof.
  intros Hr. destruct (reachable_wf S hs Hr) as [Hwf Hhs].
  split; [exact Hwf|]. split; [exact Hhs|].
  intros l ev Hl. now destruct (reachable_inv _ _ Hr l ev Hl).
Qed.

(** ** Registering *)

Section Registering.

Context {World : Type}.
Implicit Types (hook : Hook World) (ev : Qyvent World) (S : Store World).

Lemma Qyvents_get_Some S id ev :
  Qyvents_get S id = Some ev <->
  exists i l, id = Some i /\ Qyvents S !! i = Some l /\ objs S !! l = Some ev.
Proof.
  unfold Qyvents_get, Qyvents_ref. split.
  - destruct id as [i|]; simpl; [|discriminate].
    destruct (Qyvents S !! i) as [l|] eqn:Hl; simpl; [|discriminate].
    intros H. exists i, l. auto.
  - intros (i & l & -> & Hl & He). simpl. rewrite Hl. exact He.
Qed.

Lemma addHook_Ok S pattern cb phase S' hd :
  addHook S pattern cb phase = Ok (S', hd) ->
  exists (id : string) (l : nat) (ev : Qyvent World),
    (parse pattern).1.1 = Some id /\ Qyvents S !! id = Some l
    /\ objs S !! l = Some ev
    /\ S' = mkStore
              (<[l := (Qyvent_hook (next S) pattern cb phase ev).1]> (objs S))
              (Qyvents S) (Datatypes.S (next S))
    /\ hd = mkHandle l (next S).
Proof.
  unfold addHook. intros H.
  apply event_hook_Ok in H as (l & ev & Hl & He & HS & Hhd).
  rewrite split1_parse in Hl. unfold Qyvents_ref in Hl.
  destruct (parse pattern).1.1 as [id|]; simpl in Hl; [|discriminate].
  exists id, l, ev. auto.
Qed.

Lemma addHook_registered S pattern cb phase id l ev :
  (parse pattern).1.1 = Some id -> Qyvents S !! id = Some l ->
  objs S !! l = Some ev ->
  addHook S pattern cb phase
  = Ok (mkStore (<[l := (Qyvent_hook (next S) pattern cb phase ev).1]> (objs S))
          (Qyvents S) (Datatypes.S (next S)),
        mkHandle l (next S)).
Proof.
  intros Hid Hl He. unfold addHook, event_hook, Qyvents_ref.
  rewrite split1_parse, Hid. simpl. rewrite Hl, He.
  destruct (Qyvent_hook_fields (next S) pattern cb phase ev)
    as (_ & _ & _ & _ & Href & _).
  destruct (Qyvent_hook (next S) pattern cb phase ev) as [ev' hookObj].
  simpl in *. now rewrite Href.
Qed.

Lemma sort_insert_sublist {A} (cmp : A -> A -> Z) (x : A) (l : list A) :
  l `sublist_of` Js.sort_insert cmp x l.
Proof.
  induction l as [|y l IH]; simpl; [apply sublist_nil_l|].
  destruct (cmp y x <=? 0).
  - now apply sublist_skip.
  - apply sublist_cons. reflexivity.
Qed.

End Registering.

(** X3. On a store that the operations have built, [addHook] succeeds
    exactly when the namespace id of the pattern is registered. *)
Theorem addHook_succeeds_iff_registered {World : Type} (S : Store World)
    (hs : list Handle) (pattern : string) (cb : Callback World)
    (phase : option string) (id : string) :
  reachable S hs ->
  (parse pattern).1.1 = Some id ->
  (is_Some (Qyvents S !! id)
   <-> exists S' hd, addHook S pattern cb phase = Ok (S', hd)).
Proof.
  intros Hr Hid. destruct (reachable_wf S hs Hr) as [[Hids _] _]. split.
  - intros [l Hl]. destruct (Hids id l Hl) as (ev & He & _).
    rewrite (addHook_registered S pattern cb phase id l ev Hid Hl He). eauto.
  - intros (S' & hd & Ha).
    apply addHook_Ok in Ha as (id' & l & ev & Hid' & Hl & _).
    rewrite Hid in Hid'. injection Hid' as <-. eauto.
Qed.

(** X4. [addHook] adds one hook to the namespace of the pattern and
    nothing else: the hooks of that namespace are afterwards the hooks
    that were there and the new one, which carries the parts of the
    pattern, the callback and the phase given or else the default phase;
    the other properties of the namespace, the other namespace objects
    and the map of namespaces are as before. *)
Theorem addHook_adds_one_hook {World : Type} (S S' : Store World)
    (pattern : string) (cb : Callback World) (phase : option string)
    (hd : Handle) :
  addHook S pattern cb phase = Ok (S', hd) ->
  Qyvents S' = Qyvents S
  /\ (forall l, l <> hd_event hd -> objs S' !! l = objs S !! l)
  /\ exists ev ev',
       objs S !! hd_event hd = Some ev /\ objs S' !! hd_event hd = Some ev'
       /\ ev_id ev' = ev_id ev /\ ev_ctx ev' = ev_ctx ev
       /\ ev_phases ev' = ev_phases ev /\ ev_main ev' = ev_main ev
       /\ Permutation (ev_hooks ev')
            (ev_hooks ev
             ++ [mkHook (hd_hook hd) (parse pattern).1.1 (parse pattern).1.2
                   (parse pattern).2 cb
                   (match phase with Some p => Some p | None => ev_main ev end)]).
Proof.
  intros Ha. apply addHook_Ok in Ha as (id & l & ev & _ & _ & He & -> & ->).
  simpl. split; [reflexivity|]. split.
  - intros l' Hne. now rewrite lookup_insert_ne by congruence.
  - exists ev. eexists. split; [exact He|].
    rewrite lookup_insert_eq. split; [reflexivity|].
    destruct (Qyvent_hook_fields (next S) pattern cb phase ev)
      as (H1 & H2 & H3 & H4 & _ & _).
    repeat (split; [assumption|]).
    rewrite <- Qyvent_hook_new_hook. apply Qyvent_hook_perm.
Qed.

(** X5. On a store that the operations have built, registering a hook
    does not reorder the hooks that are there: in every namespace the
    hooks from before stand in their order among the hooks
    afterwards. *)
Theorem addHook_keeps_order_of_hooks {World : Type} (S S' : Store World)
    (hs : list Handle) (pattern : string) (cb : Callback World)
    (phase : option string) (hd : Handle) (l : nat) (ev : Qyvent World) :
  reachable S hs ->
  addHook S pattern cb phase = Ok (S', hd) ->
  objs S !! l = Some ev ->
  exists ev', objs S' !! l = Some ev'
              /\ ev_hooks ev `sublist_of` ev_hooks ev'.
Proof.
  intros Hr Ha Hl.
  apply addHook_Ok in Ha as (id & l0 & ev0 & _ & _ & He & -> & ->). simpl.
  destruct (decide (l0 = l)) as [->|Hne].
  - rewrite lookup_insert_eq. eexists. split; [reflexivity|].
    rewrite Hl in He. injection He as <-.
    destruct (reachable_inv _ _ Hr l ev Hl) as [Hs _].
    destruct (Qyvent_hook_fields (next S) pattern cb phase ev)
      as (_ & _ & _ & _ & _ & ->).
    pose proof (sort_snoc (phase_index (ev_phases ev)) (ev_hooks ev)
                  (Qyvent_hook (next S) pattern cb phase ev).2) as Hsnoc.
    pose proof (sort_sorted_id (phase_index (ev_phases ev)) (ev_hooks ev)
                  (hook_before_phase_sorted _ _ Hs)) as Hid.
    change (key_cmp (phase_index (ev_phases ev)))
      with (phase_cmp (World:=World) (ev_phases ev)) in Hsnoc, Hid.
    rewrite Hsnoc, Hid. apply sort_insert_sublist.
  - rewrite lookup_insert_ne by exact Hne. exists ev. split; [exact Hl|reflexivity].
Qed.

(** X6. After [addHook] has registered a hook under a pattern, [fire]
    and [filter] select this hook for the same pattern and [Qyvr.has]
    answers true for it. *)
Theorem addHook_then_selected {World : Type} (S S' : Store World)
    (pattern : string) (cb : Callback World) (phase : option string)
    (hd : Handle) :
  addHook S pattern cb phase = Ok (S', hd) ->
  exists event hook,
    Qyvents_get S' (parse pattern).1.1 = Some event
    /\ h_ref hook = hd_hook hd /\ h_cb hook = cb
    /\ hook ∈ fire_hooks event (parse pattern).1.1 (parse pattern).1.2
                (parse pattern).2
    /\ hook ∈ Qyvent_filter event pattern
    /\ Qyvr_has S' pattern = Some true.
Proof.
  intros Ha. apply addHook_Ok in Ha as (id & l & ev & Hid & Hl & He & -> & ->).
  set (new := (Qyvent_hook (next S) pattern cb phase ev).2).
  exists (Qyvent_hook (next S) pattern cb phase ev).1, new.
  assert (Qyvents_get
            (mkStore (<[l:=(Qyvent_hook (next S) pattern cb phase ev).1]> (objs S))
               (Qyvents S) (Datatypes.S (next S))) (parse pattern).1.1
          = Some (Qyvent_hook (next S) pattern cb phase ev).1) as Hget.
  { apply Qyvents_get_Some. exists id, l. simpl. rewrite lookup_insert_eq. auto. }
  assert (new ∈ ev_hooks (Qyvent_hook (next S) pattern cb phase ev).1) as Hin.
  { rewrite Qyvent_hook_perm, elem_of_app, list_elem_of_singleton. now right. }
  assert (h_id new = (parse pattern).1.1 /\ h_action new = (parse pattern).2
          /\ h_name new = (parse pattern).1.2 /\ h_ref new = next S
          /\ h_cb new = cb) as (Hi & Hac & Hn & Hr & Hc)
    by (unfold new; rewrite Qyvent_hook_new_hook; simpl; auto).
  destruct (literal_match_same_name _ _ _ new Hi Hac Hn) as [Hlit Hspec].
  assert (new ∈ fire_hooks (Qyvent_hook (next S) pattern cb phase ev).1
                  (parse pattern).1.1 (parse pattern).1.2 (parse pattern).2) as Hsel.
  { unfold fire_hooks. rewrite list_elem_of_In, filter_In, <- list_elem_of_In.
    split; [exact Hin | now apply fire_pred_spec]. }
  split; [exact Hget|]. split; [exact Hr|]. split; [exact Hc|].
  split; [exact Hsel|]. split; [now rewrite Qyvent_filter_fire_hooks|].
  unfold Qyvr_has. destruct (parse pattern) as [[i n] a] eqn:Hp. simpl in *.
  rewrite Hget. f_equal. apply has_found. eauto.
Qed.

(** X7. [Qyvent.has] of Qyvr.mjs finds a hook that was registered under
    a pattern whose first segment is the id of the namespace, provided
    no segment of the pattern stands twice. *)
Theorem Qyvent_has_after_hook {World : Type} (ev : Qyvent World) (ref : nat)
    (pattern : string) (cb : Callback World) (phase : option string)
    (rest : list string) :
  Js.split pattern = ev_id ev :: rest ->
  NoDup (ev_id ev :: rest) ->
  Qyvent_has (Qyvent_hook ref pattern cb phase ev).1 pattern = true.
Proof.
  intros Hs Hnd. rewrite Qyvent_has_unfold.
  destruct (Qyvent_hook_fields ref pattern cb phase ev) as (Hid & _).
  rewrite Hid, Hs, Set_of_first_occurrences.
  change (first_occurrences (ev_id ev :: ev_id ev :: rest))
    with (ev_id ev :: List.filter (fun y => negb (String.eqb y (ev_id ev)))
                        (first_occurrences (ev_id ev :: rest))).
  rewrite (first_occurrences_id _ Hnd). simpl. rewrite String.eqb_refl. simpl.
  apply NoDup_cons in Hnd as [Hnotin _].
  rewrite forallb_filter_id.
  2:{ apply forallb_forall. intros y Hy.
      destruct (String.eqb_spec y (ev_id ev)) as [->|]; [|reflexivity].
      now apply list_elem_of_In in Hy. }
  apply has_found. exists (Qyvent_hook ref pattern cb phase ev).2. split.
  - rewrite Qyvent_hook_perm, elem_of_app, list_elem_of_singleton. now right.
  - rewrite Qyvent_hook_new_hook. unfold literal_match, parse. rewrite Hs.
    simpl. auto.
Qed.

(** ** Firing *)

Section Firing.

Context {World : Type}.
Implicit Types (hook : Hook World) (event : Qyvent World) (S : Store World)
  (w : World) (c : Ctx).

Lemma StronglySorted_filter {A} (R : A -> A -> Prop) (p : A -> bool) (l : list A) :
  StronglySorted R l -> StronglySorted R (List.filter p l).
Proof.
  induction 1 as [|x l Hl IH Hx]; simpl; [constructor|].
  destruct (p x); [|exact IH]. constructor; [exact IH|].
  rewrite Forall_forall in *. intros y Hy. apply Hx.
  apply list_elem_of_In in Hy. apply filter_In in Hy as [Hy _].
  now apply list_elem_of_In.
Qed.

Lemma StronglySorted_prefix {A} (R : A -> A -> Prop) (l1 l2 : list A) :
  l1 `prefix_of` l2 -> StronglySorted R l2 -> StronglySorted R l1.
Proof.
  intros [k ->] H. rewrite <- (take_app_length l1 k).
  now apply StronglySorted_take.
Qed.

Lemma ctx_preserving_awaited args (hooks : list (Hook World)) c w :
  Forall (ctx_preserving args) hooks ->
  truthy (c_stopped c) = false ->
  exists c' w',
    awaited args hooks c w c' w' /\ c_stopped c' = c_stopped c.
Proof.
  intros Hall. revert c w. induction Hall as [|hook hooks Hh _ IH]; intros c w Hs.
  - exists c, w. split; [constructor | reflexivity].
  - destruct (Hh w c) as (result & w1 & Hcb).
    destruct (IH (record_result result c) w1) as (c' & w' & Ha & Hst).
    + now rewrite record_result_stopped.
    + exists c', w'. split.
      * econstructor; [exact Hcb | now rewrite record_result_stopped | exact Ha].
      * now rewrite Hst, record_result_stopped.
Qed.

Lemma awaited_snoc args (pre : list (Hook World)) hook c w c1 w1 result c2 w2 :
  awaited args pre c w c1 w1 ->
  h_cb hook w1 c1 args = Fulfilled result c2 w2 ->
  truthy (c_stopped (record_result result c2)) = false ->
  awaited args (pre ++ [hook]) c w (record_result result c2) w2.
Proof.
  induction 1 as [c w|h hooks c w r c3 w3 c' w' Hh Hs _ IH]; intros Hcb Hst; simpl.
  - econstructor; [exact Hcb | exact Hst | constructor].
  - econstructor; [exact Hh | exact Hs | now apply IH].
Qed.

End Firing.

(** X8. On a store that the operations have built, [fire] calls the
    hooks in the order of the phases of the namespace and, within a
    phase, in the order in which they were registered. *)
Theorem fire_calls_in_phase_order {World : Type} (S : Store World)
    (hs : list Handle) (pattern : string) (args : list value) (w : World)
    (event : Qyvent World) :
  reachable S hs ->
  Qyvents_get S (parse pattern).1.1 = Some event ->
  StronglySorted (hook_before (ev_phases event))
    (invoked (fire S pattern args w))
  /\ StronglySorted (hook_before (ev_phases event))
       (invoked (Qyvr_fire S pattern args w)).
Proof.
  intros Hr Hev. rewrite Qyvr_fire_fire, fire_unfold, Hev.
  apply Qyvents_get_Some in Hev as (i & l & _ & _ & He).
  destruct (reachable_inv _ _ Hr l event He) as [Hs _].
  assert (StronglySorted (hook_before (ev_phases event))
            (invoked (run_hooks
               (fire_hooks event (parse pattern).1.1 (parse pattern).1.2
                  (parse pattern).2) (ctx_new (ev_ctx event) args) args w))) as H.
  { eapply StronglySorted_prefix; [apply run_hooks_invoked_prefix|].
    unfold fire_hooks. now apply StronglySorted_filter. }
  split; exact H.
Qed.

(** X9. When the namespace is registered and none of its hooks is
    selected for the pattern, [fire] calls nothing and resolves with
    [undefined], whatever the shared context holds. *)
Theorem fire_without_selected_hook {World : Type} (S : Store World)
    (pattern : string) (args : list value) (w : World) (event : Qyvent World) :
  Qyvents_get S (parse pattern).1.1 = Some event ->
  fire_hooks event (parse pattern).1.1 (parse pattern).1.2 (parse pattern).2 = [] ->
  fire S pattern args w = mkRun (Resolved VUndef) [] w
  /\ Qyvr_fire S pattern args w = mkRun (Resolved VUndef) [] w.
Proof.
  intros Hev Hsel. rewrite Qyvr_fire_fire, fire_unfold, Hev, Hsel.
  split; reflexivity.
Qed.

(** X10. When the shared context has no truthy [stopped], the selected
    hooks leave the context object alone and the last of them always
    returns the same value, not [undefined], then [fire] calls all
    selected hooks and resolves with that value. *)
Theorem fire_resolves_with_last_result {World : Type} (S : Store World)
    (pattern : string) (args : list value) (w : World) (event : Qyvent World)
    (pre : list (Hook World)) (hook : Hook World) (v : value) :
  Qyvents_get S (parse pattern).1.1 = Some event ->
  truthy (default VUndef (ev_ctx event !! "stopped")) = false ->
  fire_hooks event (parse pattern).1.1 (parse pattern).1.2 (parse pattern).2
  = pre ++ [hook] ->
  Forall (ctx_preserving args) pre ->
  (forall w c, exists w', h_cb hook w c args = Fulfilled v c w') ->
  v <> VUndef ->
  settled (fire S pattern args w) = Resolved v
  /\ invoked (fire S pattern args w) = pre ++ [hook].
Proof.
  intros Hev Hst Hsel Hpre Hlast Hv. rewrite fire_unfold, Hev, Hsel.
  destruct (ctx_preserving_awaited args pre (ctx_new (ev_ctx event) args) w Hpre Hst)
    as (c1 & w1 & Ha & Hst1).
  destruct (Hlast w1 c1) as (w2 & Hcb).
  assert (awaited args (pre ++ [hook]) (ctx_new (ev_ctx event) args) w
            (record_result v c1) w2) as Hall.
  { eapply awaited_snoc; [exact Ha | exact Hcb |].
    rewrite record_result_stopped, Hst1. exact Hst. }
  rewrite (run_hooks_completes _ _ _ _ _ _ Hall). simpl.
  split; [|reflexivity]. rewrite record_result_return.
  now destruct (decide (v = VUndef)).
Qed.

(** X11. The context object copies the shared context of the namespace:
    when the shared context holds a truthy [stopped] and the first
    selected hook does not change it, [fire] calls this hook only and
    resolves with what it left in the return slot. *)
Theorem fire_with_stopped_shared_context {World : Type} (S : Store World)
    (pattern : string) (args : list value) (w w' : World)
    (event : Qyvent World) (hook : Hook World) (rest : list (Hook World))
    (stopped result : value) (c : Ctx) :
  Qyvents_get S (parse pattern).1.1 = Some event ->
  ev_ctx event !! "stopped" = Some stopped ->
  truthy stopped = true ->
  fire_hooks event (parse pattern).1.1 (parse pattern).1.2 (parse pattern).2
  = hook :: rest ->
  h_cb hook w (ctx_new (ev_ctx event) args) args = Fulfilled result c w' ->
  c_stopped c = stopped ->
  fire S pattern args w
  = mkRun (Resolved (c_return (record_result result c))) [hook] w'.
Proof.
  intros Hev Hshared Htruthy Hsel Hcb Hc. rewrite fire_unfold, Hev, Hsel.
  simpl. rewrite Hcb, record_result_stopped, Hc, Htruthy. reflexivity.
Qed.

(** ** Unregistering *)

Lemma hooks_indexOf_absent {World : Type} (hooks : list (Hook World)) (ref : nat) :
  Forall (fun h => h_ref h <> ref) hooks -> hooks_indexOf hooks ref = -1.
Proof.
  intros H. unfold hooks_indexOf, Js.findIndex.
  apply findIndex_from_none; [lia|].
  eapply Forall_impl; [exact H|]. intros h Hh. now apply Nat.eqb_neq.
Qed.

Lemma splice_minus_one {A} (l : list A) : Js.splice l (-1) = removelast l.
Proof.
  unfold Js.splice. simpl. rewrite removelast_firstn_len. f_equal.
  destruct l; simpl; lia.
Qed.

Lemma Qyvent_unhook_absent {World : Type} (ev : Qyvent World) (ref : nat) :
  Forall (fun h => h_ref h <> ref) (ev_hooks ev) ->
  ev_hooks (Qyvent_unhook ref ev) = removelast (ev_hooks ev).
Proof.
  intros H. unfold Qyvent_unhook. simpl.
  now rewrite (hooks_indexOf_absent _ _ H), splice_minus_one.
Qed.

(** X12. The closure returned by [hook], called when its hook is no
    longer among the hooks of the namespace, removes the last hook that
    is left; on a namespace without hooks it changes nothing. *)
Theorem unhook_of_absent_hook_removes_last {World : Type} (ev : Qyvent World)
    (ref : nat) :
  Forall (fun h => h_ref h <> ref) (ev_hooks ev) ->
  ev_hooks (Qyvent_unhook ref ev) = removelast (ev_hooks ev)
  /\ (ev_hooks ev = [] -> Qyvent_unhook ref ev = ev).
Proof.
  intros H. split; [now apply Qyvent_unhook_absent|].
  intros Hnil. unfold Qyvent_unhook. destruct ev as [i c p m h].
  simpl in *. subst h. reflexivity.
Qed.

Lemma NoDup_refs_before {World : Type} (pre post : list (Hook World))
    (hook : Hook World) :
  NoDup (map h_ref (pre ++ hook :: post)) ->
  Forall (fun h => h_ref h <> h_ref hook) pre.
Proof.
  rewrite map_app. simpl. intros H. apply NoDup_app in H as (_ & H & _).
  apply Forall_forall. intros h Hh Heq. apply (H (h_ref h)).
  - apply list_elem_of_fmap. eauto.
  - rewrite Heq. left.
Qed.

(** X13. On a store that the operations have built, calling the closure
    that registering a hook returned, while the hook is among the hooks
    of its namespace, leaves exactly the hooks that stand before it; the
    other namespace objects and the map of namespaces are as before. *)
Theorem unhook_leaves_hooks_before {World : Type} (S : Store World)
    (hs : list Handle) (l : nat) (ev : Qyvent World)
    (pre post : list (Hook World)) (hook : Hook World) :
  reachable S hs ->
  objs S !! l = Some ev ->
  ev_hooks ev = pre ++ hook :: post ->
  let S' := unhook S (mkHandle l (h_ref hook)) in
  Qyvents S' = Qyvents S
  /\ (forall l', l' <> l -> objs S' !! l' = objs S !! l')
  /\ exists ev', objs S' !! l = Some ev' /\ ev_hooks ev' = pre
                 /\ ev_id ev' = ev_id ev /\ ev_phases ev' = ev_phases ev.
Proof.
  intros Hr He Hhooks S'. destruct (reachable_wf S hs Hr) as [[_ Hobjs] _].
  destruct (Hobjs l ev He) as (_ & Hnd & _). rewrite Hhooks in Hnd.
  split; [reflexivity|]. split.
  - intros l' Hne. unfold S', unhook. simpl.
    now rewrite lookup_alter_ne by congruence.
  - unfold S', unhook. simpl. rewrite lookup_alter_eq, He. simpl.
    eexists. split; [reflexivity|]. split; [|split; reflexivity].
    apply (Qyvent_unhook_truncates ev pre post hook Hhooks).
    now apply (NoDup_refs_before pre post).
Qed.

(** X14. On a store that the operations have built, the closure returned
    by [propertyHook], called while getter and setter stand among the
    hooks in this order, removes the getter and every hook behind it,
    and then the last of the hooks that stood before the getter. *)
Theorem unhook_property_removes_one_more {World : Type} (S : Store World)
    (hs : list Handle) (l : nat) (ev : Qyvent World)
    (pre mid post : list (Hook World)) (getter setter : Hook World) :
  reachable S hs ->
  objs S !! l = Some ev ->
  ev_hooks ev = pre ++ getter :: mid ++ setter :: post ->
  exists ev',
    objs (unhook_property S (mkHandle l (h_ref getter), mkHandle l (h_ref setter)))
      !! l = Some ev'
    /\ ev_hooks ev' = removelast pre.
Proof.
  intros Hr He Hhooks. destruct (reachable_wf S hs Hr) as [[_ Hobjs] _].
  destruct (Hobjs l ev He) as (_ & Hnd & _). rewrite Hhooks in Hnd.
  unfold unhook_property, unhook. simpl.
  rewrite lookup_alter_eq, lookup_alter_eq, He. simpl.
  eexists. split; [reflexivity|].
  pose proof (Qyvent_unhook_truncates ev pre (mid ++ setter :: post) getter
                Hhooks (NoDup_refs_before _ _ _ Hnd)) as H1.
  rewrite Qyvent_unhook_absent; rewrite H1; [reflexivity|].
  replace (pre ++ getter :: mid ++ setter :: post)
    with ((pre ++ getter :: mid) ++ setter :: post) in Hnd
    by now rewrite <- app_assoc.
  apply NoDup_refs_before in Hnd. now apply Forall_app in Hnd as [Hpre _].
Qed.

(** ** Namespaces *)

(** X15. [addEvent] registers a new namespace without hooks under the
    id, in place of a namespace that was registered under it: [fire]
    for a pattern of this id then calls nothing and resolves with
    [undefined]. On a store that the operations have built, the
    namespaces of the other ids are as before. *)
Theorem addEvent_replaces_namespace {World : Type} (S : Store World)
    (hs : list Handle) (id : string) (phases : option (list string))
    (ctx : option (gmap string value)) :
  reachable S hs ->
  let S' := addEvent S id phases ctx in
  Qyvents_get S' (Some id) = Some (Qyvent_new id phases ctx)
  /\ (forall pattern args w,
        (parse pattern).1.1 = Some id ->
        fire S' pattern args w = mkRun (Resolved VUndef) [] w)
  /\ (forall id', id' <> id ->
        Qyvents_get S' (Some id') = Qyvents_get S (Some id')).
Proof.
  intros Hr S'. destruct (reachable_wf S hs Hr) as [[Hids Hobjs] _].
  assert (Qyvents_get S' (Some id) = Some (Qyvent_new id phases ctx)) as Hget.
  { unfold Qyvents_get, Qyvents_ref, S', addEvent. simpl.
    rewrite lookup_insert_eq. simpl. now rewrite lookup_insert_eq. }
  split; [exact Hget|]. split.
  - intros pattern args w Hid. rewrite fire_unfold, Hid, Hget.
    unfold fire_hooks. now rewrite Qyvent_new_hooks.
  - intros id' Hne. unfold Qyvents_get, Qyvents_ref, S', addEvent. simpl.
    rewrite lookup_insert_ne by congruence.
    destruct (Qyvents S !! id') as [l|] eqn:Hl; simpl; [|reflexivity].
    destruct (Hids id' l Hl) as (ev & Hev & _).
    destruct (Hobjs l ev Hev) as [Hlt _].
    rewrite lookup_insert_ne by lia. reflexivity.
Qed.

Section Later.

Context {World : Type}.
Implicit Types (S : Store World) (ev : Qyvent World).

Lemma later_reachable S0 hs0 S hs :
  reachable S0 hs0 -> later S0 hs0 S hs -> reachable S hs.
Proof.
  intros H0. induction 1; [exact H0|..].
  - now apply reach_addEvent.
  - now apply reach_delEvent.
  - eapply reach_hook; eassumption.
  - now apply reach_unhook.
Qed.

Lemma later_next S0 hs0 S hs : later S0 hs0 S hs -> (next S0 <= next S)%nat.
Proof.
  induction 1 as [|S hs id phases ctx _ IH|S hs id _ IH
                  |S hs id pattern cb phase S' hd _ IH Hadd|S hs hd _ IH Hhd];
    simpl; try lia.
  apply event_hook_Ok in Hadd as (l & ev & _ & _ & -> & _). simpl. lia.
Qed.

Lemma later_handles S0 hs0 S hs (hd : Handle) :
  later S0 hs0 S hs -> hd ∈ hs0 -> hd ∈ hs.
Proof. induction 1; intros Hin; auto. right. auto. Qed.

(** Once an id has been registered anew, what is registered under it
    carries a reference that was free at that time. *)
Lemma later_registered_anew S0 hs0 S hs id phases ctx (l : nat) :
  later (addEvent S0 id phases ctx) hs0 S hs ->
  Qyvents S !! id = Some l -> (next S0 <= l)%nat.
Proof.
  induction 1 as [|S hs id' phases' ctx' Hl IH|S hs id' _ IH
                  |S hs id' pattern cb phase S' hd _ IH Hadd|S hs hd _ IH Hhd];
    simpl; intros Hid.
  - rewrite lookup_insert_eq in Hid. injection Hid as <-. lia.
  - destruct (decide (id' = id)) as [->|Hne].
    + rewrite lookup_insert_eq in Hid. injection Hid as <-.
      apply later_next in Hl. simpl in Hl. lia.
    + rewrite lookup_insert_ne in Hid by exact Hne. now apply IH.
  - apply lookup_delete_Some in Hid as [_ Hid]. now apply IH.
  - apply event_hook_Ok in Hadd as (l0 & ev & _ & _ & -> & _). now apply IH.
  - now apply IH.
Qed.

End Later.

(** X16. An unregister closure acts on the namespace object it was
    made for. When the id of a namespace is registered anew after the
    closure was handed out, then, whatever is registered, unregistered
    or removed afterwards, calling the closure removes hooks from the old
    namespace object only: the namespace that is registered under the id
    keeps its hooks, and [fire] for its patterns runs as before the
    call. *)
Theorem stale_closure_acts_on_old_namespace {World : Type}
    (S0 S : Store World) (hs0 hs : list Handle) (hd : Handle) (id : string)
    (phases : option (list string)) (ctx : option (gmap string value)) :
  reachable S0 hs0 ->
  hd ∈ hs0 ->
  later (addEvent S0 id phases ctx) hs0 S hs ->
  Qyvents (unhook S hd) = Qyvents S
  /\ (forall l, l <> hd_event hd -> objs (unhook S hd) !! l = objs S !! l)
  /\ (exists old,
        objs S !! hd_event hd = Some old
        /\ objs (unhook S hd) !! hd_event hd
           = Some (Qyvent_unhook (hd_hook hd) old))
  /\ Qyvents_get (unhook S hd) (Some id) = Qyvents_get S (Some id)
  /\ (forall pattern args w,
        (parse pattern).1.1 = Some id ->
        fire (unhook S hd) pattern args w = fire S pattern args w).
Proof.
  intros H0 Hhd Hlater.
  assert (reachable S hs) as Hr.
  { eapply later_reachable; [|exact Hlater]. now apply reach_addEvent. }
  destruct (reachable_wf S0 hs0 H0) as [[_ Hobjs0] Hhs0].
  destruct (reachable_wf S hs Hr) as [_ Hhs].
  rewrite Forall_forall in Hhs0, Hhs.
  destruct (Hhs0 hd Hhd) as [ev0 Hev0].
  destruct (Hobjs0 _ ev0 Hev0) as [Hlt _].
  destruct (Hhs hd (later_handles _ _ _ _ hd Hlater Hhd)) as [old Hold].
  assert (Qyvents_get (unhook S hd) (Some id) = Qyvents_get S (Some id)) as Hget.
  { unfold Qyvents_get, Qyvents_ref, unhook. simpl.
    destruct (Qyvents S !! id) as [l|] eqn:Hl; simpl; [|reflexivity].
    pose proof (later_registered_anew _ _ _ _ _ _ _ l Hlater Hl) as Hge.
    now rewrite lookup_alter_ne by lia. }
  split; [reflexivity|]. split; [|split; [|split]].
  - intros l Hne. unfold unhook. simpl. now rewrite lookup_alter_ne by congruence.
  - exists old. split; [exact Hold|]. unfold unhook. simpl.
    now rewrite lookup_alter_eq, Hold.
  - exact Hget.
  - intros pattern args w Hid. now rewrite !fire_unfold, Hid, Hget.
Qed.

(** X17. After [delEvent], [fire] for a pattern of the id rejects
    without calling a hook, [addHook] throws and [Qyvr.has] answers
    [undefined]; the namespaces of the other ids are as before. *)
Theorem delEvent_unregisters {World : Type} (S : Store World) (id : string)
    (pattern : string) (args : list value) (w : World) (cb : Callback World)
    (phase : option string) :
  (parse pattern).1.1 = Some id ->
  let S' := delEvent S id in
  fire S' pattern args w = mkRun (Rejected TypeError) [] w
  /\ Qyvr_fire S' pattern args w = mkRun (Rejected TypeError) [] w
  /\ addHook S' pattern cb phase = Throw TypeError
  /\ Qyvr_has S' pattern = None
  /\ (forall id', id' <> id ->
        Qyvents_get S' (Some id') = Qyvents_get S (Some id')).
Proof.
  intros Hid S'.
  assert (Qyvents_get S' (parse pattern).1.1 = None) as Hget.
  { rewrite Hid. unfold Qyvents_get, Qyvents_ref, S', delEvent. simpl.
    now rewrite lookup_delete_eq. }
  assert (fire S' pattern args w = mkRun (Rejected TypeError) [] w) as Hfire
    by (now rewrite fire_unfold, Hget).
  split; [exact Hfire|]. split; [now rewrite Qyvr_fire_fire|]. split; [|split].
  - unfold addHook, event_hook, Qyvents_ref. rewrite split1_parse, Hid.
    unfold S', delEvent. simpl. now rewrite lookup_delete_eq.
  - unfold Qyvr_has. destruct (parse pattern) as [[i n] a]. simpl in *.
    now rewrite Hget.
  - intros id' Hne. unfold Qyvents_get, Qyvents_ref, S', delEvent. simpl.
    now rewrite lookup_delete_ne by congruence.
Qed.

(** ** Patterns built by appending *)

Lemma string_append_assoc (a b c : string) :
  (a +:+ b) +:+ c = a +:+ (b +:+ c).
Proof.
  induction a as [|x a IH]; [reflexivity|].
  change (String x ((a +:+ b) +:+ c) = String x (a +:+ (b +:+ c))).
  now rewrite IH.
Qed.

Lemma split_append (a b : string) :
  Js.split (a +:+ String "."%char b) = Js.split a ++ Js.split b.
Proof.
  induction a as [|c a IH]; [reflexivity|].
  pose proof (split_not_nil a) as Hne. simpl.
  destruct (Ascii.eqb c "."); rewrite IH; [reflexivity|].
  destruct (Js.split a) as [|seg segs]; [contradiction | reflexivity].
Qed.

Lemma split1_append (a b : string) :
  Js.split1 (a +:+ String "."%char b) !! 0%nat = Js.split1 a !! 0%nat.
Proof.
  unfold Js.split1. rewrite split_append.
  pose proof (split_not_nil a) as Hne.
  destruct (Js.split a) as [|seg segs]; [contradiction | reflexivity].
Qed.

Lemma parse_append (pattern action : string) (id : string) (name : list string) :
  dotfree action = true ->
  Js.split pattern = id :: name ->
  parse (pattern +:+ String "."%char action) = (Some id, name, Some action).
Proof.
  intros Hdf Hs. unfold parse.
  rewrite split_append, Hs, (split_dotfree_id action Hdf). simpl.
  unfold Js.pop. now rewrite last_snoc, removelast_last.
Qed.

(** X18. [methodHook] registers what [addHook] registers for the
    pattern followed by [.call], in the default phase. *)
Theorem methodHook_is_addHook {World : Type} (S : Store World)
    (pattern : string) (cb : Callback World) :
  methodHook S pattern cb = addHook S (pattern +:+ ".call") cb None.
Proof. unfold methodHook, addHook. now rewrite split1_append. Qed.

Lemma event_hook_Qyvents {World : Type} (S S' : Store World) target pattern
    (cb : Callback World) phase hd :
  event_hook S target pattern cb phase = Ok (S', hd) -> Qyvents S' = Qyvents S.
Proof.
  intros H. apply event_hook_Ok in H as (l & ev & _ & _ & -> & _). reflexivity.
Qed.

(** X19. [propertyHook] registers what two calls of [addHook] register,
    first for the pattern followed by [.get] with the getter, then for
    the pattern followed by [.set] with the setter, both in the default
    phase; it throws what the first of them throws. *)
Theorem propertyHook_is_two_addHooks {World : Type} (S : Store World)
    (pattern : string) (getter setter : option (Callback World)) :
  propertyHook S pattern getter setter
  = match addHook S (pattern +:+ ".get") (default cb_empty getter) None with
    | Throw e => Throw e
    | Ok (S1, removeGetter) =>
        match addHook S1 (pattern +:+ ".set") (default cb_empty setter) None with
        | Throw e => Throw e
        | Ok (S2, removeSetter) => Ok (S2, (removeGetter, removeSetter))
        end
    end.
Proof.
  unfold propertyHook, addHook. rewrite !split1_append.
  destruct (event_hook S _ (pattern +:+ ".get") _ None) as [[S1 rg]|e] eqn:H1;
    [|reflexivity].
  unfold Qyvents_ref. now rewrite (event_hook_Qyvents _ _ _ _ _ _ _ H1).
Qed.

Section Property.

Context {World : Type}.
Implicit Types (hook : Hook World) (ev : Qyvent World) (S : Store World).

Lemma event_hook_registered S l ev pattern cb phase :
  objs S !! l = Some ev ->
  event_hook S (Some l) pattern cb phase
  = Ok (mkStore (<[l := (Qyvent_hook (next S) pattern cb phase ev).1]> (objs S))
          (Qyvents S) (Datatypes.S (next S)),
        mkHandle l (next S)).
Proof.
  intros He. unfold event_hook. rewrite He.
  destruct (Qyvent_hook_fields (next S) pattern cb phase ev)
    as (_ & _ & _ & _ & Href & _).
  destruct (Qyvent_hook (next S) pattern cb phase ev) as [ev' hookObj].
  simpl in *. now rewrite Href.
Qed.

Lemma Qyvent_hook_first ref pattern cb phase ev :
  ev_hooks ev = [] ->
  ev_hooks (Qyvent_hook ref pattern cb phase ev).1
  = [(Qyvent_hook ref pattern cb phase ev).2].
Proof.
  intros Hnil.
  destruct (Qyvent_hook_fields ref pattern cb phase ev) as (_ & _ & _ & _ & _ & ->).
  now rewrite Hnil.
Qed.

Lemma Qyvent_hook_second ref pattern cb ev first :
  ev_hooks ev = [first] -> h_phase first = ev_main ev ->
  ev_hooks (Qyvent_hook ref pattern cb None ev).1
  = [first; (Qyvent_hook ref pattern cb None ev).2].
Proof.
  intros Hone Hphase.
  destruct (Qyvent_hook_fields ref pattern cb None ev) as (_ & _ & _ & _ & _ & ->).
  rewrite Hone. unfold Js.sort. simpl. unfold phase_cmp, phase_index.
  rewrite Qyvent_hook_new_hook. simpl. rewrite Hphase, Z.sub_diag. reflexivity.
Qed.

Lemma fire_pred_self id name action ref (cb : Callback World) phase :
  fire_pred id name action (mkHook ref id name action cb phase) = true.
Proof.
  apply fire_pred_spec.
  now apply (literal_match_same_name id name action
               (mkHook ref id name action cb phase)).
Qed.

Lemma fire_pred_other_action id name action hook :
  h_action hook <> action -> fire_pred id name action hook = false.
Proof.
  intros Hne. destruct (fire_pred id name action hook) eqn:H; [|reflexivity].
  apply fire_pred_spec in H as (_ & Ha & _). contradiction.
Qed.

End Property.

(** X20. A property registered with [propertyHook] on a namespace that
    [addEvent] has just registered: [fire] for the pattern followed by
    [.get] runs the getter and nothing else, [fire] for the pattern
    followed by [.set] runs the setter and nothing else. *)
Theorem property_of_new_namespace {World : Type} (S0 : Store World)
    (id : string) (phases : option (list string))
    (ctx : option (gmap string value)) (pattern : string)
    (getter setter : option (Callback World)) :
  (parse pattern).1.1 = Some id ->
  exists S2 remove g s,
    propertyHook (addEvent S0 id phases ctx) pattern getter setter
    = Ok (S2, remove)
    /\ h_cb g = default cb_empty getter /\ h_cb s = default cb_empty setter
    /\ forall args w,
         fire S2 (pattern +:+ ".get") args w
         = run_hooks [g] (ctx_new (default ∅ ctx) args) args w
         /\ fire S2 (pattern +:+ ".set") args w
            = run_hooks [s] (ctx_new (default ∅ ctx) args) args w.
Proof.
  intros Hid.
  destruct (parse_split pattern) as (id' & name & Hs & Hp).
  rewrite Hp in Hid. injection Hid as ->.
  set (S := addEvent S0 id phases ctx).
  set (ev0 := Qyvent_new (World:=World) id phases ctx).
  set (l := next S0).
  destruct (Qyvent_new_fields (World:=World) id phases ctx)
    as (_ & Hctx0 & Hhooks0 & _). fold ev0 in Hctx0, Hhooks0.
  assert (objs S !! l = Some ev0) as He0 by apply lookup_insert_eq.
  assert (Qyvents_ref S (Js.split1 pattern !! 0%nat) = Some l) as Href.
  { rewrite split1_parse, Hp. unfold Qyvents_ref. simpl. apply lookup_insert_eq. }
  set (g := default cb_empty getter). set (s := default cb_empty setter).
  set (r1 := Qyvent_hook (next S) (pattern +:+ ".get") g None ev0).
  set (S1 := mkStore (<[l := r1.1]> (objs S)) (Qyvents S) (Datatypes.S (next S))).
  set (r2 := Qyvent_hook (next S1) (pattern +:+ ".set") s None r1.1).
  set (S2 := mkStore (<[l := r2.1]> (objs S1)) (Qyvents S1) (Datatypes.S (next S1))).
  assert (propertyHook S pattern getter setter
          = Ok (S2, (mkHandle l (next S), mkHandle l (next S1)))) as Hprop.
  { unfold propertyHook. rewrite Href.
    rewrite (event_hook_registered S l ev0 _ _ _ He0). fold g r1 S1.
    rewrite (event_hook_registered S1 l r1.1); [reflexivity|].
    apply lookup_insert_eq. }
  destruct (Qyvent_hook_fields (next S) (pattern +:+ ".get") g None ev0)
    as (Hid1 & Hctx1 & Hph1 & Hmain1 & _). fold r1 in Hid1, Hctx1, Hph1, Hmain1.
  destruct (Qyvent_hook_fields (next S1) (pattern +:+ ".set") s None r1.1)
    as (Hid2 & Hctx2 & _). fold r2 in Hid2, Hctx2.
  assert (r1.2 = mkHook (next S) (Some id) name (Some "get") g (ev_main ev0)) as Hg.
  { unfold r1. rewrite Qyvent_hook_new_hook, (parse_append _ "get" id name eq_refl Hs).
    reflexivity. }
  assert (r2.2 = mkHook (next S1) (Some id) name (Some "set") s (ev_main r1.1)) as Hset.
  { unfold r2. rewrite Qyvent_hook_new_hook, (parse_append _ "set" id name eq_refl Hs).
    reflexivity. }
  assert (ev_hooks r2.1 = [r1.2; r2.2]) as Hhooks2.
  { unfold r2. apply Qyvent_hook_second.
    - unfold r1. now apply Qyvent_hook_first.
    - rewrite Hg, Hmain1. reflexivity. }
  assert (Qyvents_get S2 (Some id) = Some r2.1) as Hget.
  { unfold Qyvents_get, Qyvents_ref. simpl. rewrite lookup_insert_eq. simpl.
    apply lookup_insert_eq. }
  exists S2, (mkHandle l (next S), mkHandle l (next S1)), r1.2, r2.2.
  split; [exact Hprop|]. split; [now rewrite Hg|]. split; [now rewrite Hset|].
  intros args w. rewrite !fire_unfold.
  rewrite (parse_append _ "get" id name eq_refl Hs).
  rewrite (parse_append _ "set" id name eq_refl Hs). simpl.
  rewrite Hget, Hctx2, Hctx1, Hctx0. unfold fire_hooks. rewrite Hhooks2.
  simpl. rewrite Hg, Hset.
  rewrite !fire_pred_self.
  rewrite !fire_pred_other_action by (simpl; discriminate).
  split; reflexivity.
Qed.

(** ** has, fire and the proxy *)

Lemma join_inj (a b : list string) :
  a <> [] -> b <> [] ->
  Forall (fun seg => dotfree seg = true) a ->
  Forall (fun seg => dotfree seg = true) b ->
  Js.join a = Js.join b -> a = b.
Proof.
  intros Ha Hb Hda Hdb H.
  rewrite <- (split_join a Ha Hda), <- (split_join b Hb Hdb). now rewrite H.
Qed.

(** X21. On a store that the operations have built, when [Qyvr.has]
    answers true for a pattern that has name parts, none of them empty,
    [fire] selects a hook for this pattern. *)
Theorem has_then_fire_selects {World : Type} (S : Store World)
    (hs : list Handle) (pattern : string) :
  reachable S hs ->
  (parse pattern).1.2 <> [] ->
  "" ∉ (parse pattern).1.2 ->
  Qyvr_has S pattern = Some true ->
  exists event hook,
    Qyvents_get S (parse pattern).1.1 = Some event
    /\ hook ∈ fire_hooks event (parse pattern).1.1 (parse pattern).1.2
                (parse pattern).2
    /\ hook ∈ Qyvent_filter event pattern.
Proof.
  intros Hr Hne Hempty Hhas. destruct (reachable_wf S hs Hr) as [[_ Hobjs] _].
  pose proof (parse_name_dotfree pattern) as Hdf.
  unfold Qyvr_has in Hhas.
  destruct (parse pattern) as [[id name] action] eqn:Hp. simpl in *.
  destruct (Qyvents_get S id) as [event|] eqn:Hev; [|discriminate].
  injection Hhas as Hhas. apply has_found in Hhas as (hook & Hin & Hi & Ha & Hj).
  pose proof Hev as Hev'.
  apply Qyvents_get_Some in Hev' as (i & l & _ & _ & He).
  destruct (Hobjs l event He) as (_ & _ & Hnames).
  rewrite Forall_forall in Hnames. specialize (Hnames hook Hin).
  assert (h_name hook = name) as Hn.
  { destruct (h_name hook) as [|x xs] eqn:Hhn.
    - exfalso. apply Hempty. simpl in Hj.
      rewrite <- (split_join name Hne Hdf), <- Hj. left.
    - now apply join_inj. }
  exists event, hook. split; [reflexivity|].
  assert (hook ∈ fire_hooks event id name action) as Hsel.
  { unfold fire_hooks. rewrite list_elem_of_In, filter_In, <- list_elem_of_In.
    split; [exact Hin|]. apply fire_pred_spec.
    now apply literal_match_same_name. }
  split; [exact Hsel|]. rewrite Qyvent_filter_fire_hooks, Hp. exact Hsel.
Qed.

(** X22. On a store that the operations have built, reading a property
    of the proxy of a registered namespace gives the closure that fires
    [ns.property.call] when a hook stands at this pattern, provided
    namespace id and property contain no dot and namespace id, property
    and [call] differ from each other. *)
Theorem proxy_get_gives_method {World : Type} (S : Store World)
    (hs : list Handle) (ns property : string) (w : World)
    (qyvr : Qyvent World) (hook : Hook World) :
  reachable S hs ->
  Qyvents_get S (Some ns) = Some qyvr ->
  dotfree ns = true -> dotfree property = true ->
  NoDup [ns; property; "call"] ->
  hook ∈ ev_hooks qyvr ->
  h_id hook = Some ns -> h_name hook = [property] ->
  h_action hook = Some "call" ->
  qyvrProxyHandler_get S ns (KString property) w
  = Ok (Method (ns +:+ "." +:+ property +:+ ".call")).
Proof.
  intros Hr Hget Hns Hprop Hnd Hin Hi Hn Ha.
  destruct (reachable_wf S hs Hr) as [[Hids _] _].
  pose proof Hget as Hget'.
  apply Qyvents_get_Some in Hget' as (i & l & [= <-] & Hl & He).
  destruct (Hids ns l Hl) as (ev & He' & Hid). rewrite He in He'.
  injection He' as <-.
  unfold qyvrProxyHandler_get. rewrite Hget.
  assert (Qyvent_has qyvr (ns +:+ "." +:+ property +:+ ".call") = true) as ->;
    [|reflexivity].
  rewrite Qyvent_has_unfold, Hid.
  change (ns +:+ "." +:+ property +:+ ".call")
    with (ns +:+ String "." (property +:+ String "." "call")).
  rewrite !split_append, (split_dotfree_id ns Hns),
    (split_dotfree_id property Hprop).
  rewrite Set_of_first_occurrences.
  change (first_occurrences (ns :: [ns] ++ [property] ++ Js.split "call"))
    with (ns :: List.filter (fun y => negb (String.eqb y ns))
                  (first_occurrences [ns; property; "call"])).
  rewrite (first_occurrences_id _ Hnd).
  apply NoDup_cons in Hnd as [Hnotin _].
  assert (List.filter (fun y => negb (String.eqb y ns)) [ns; property; "call"]
          = [property; "call"]) as ->.
  { unfold List.filter. rewrite String.eqb_refl.
    rewrite (proj2 (String.eqb_neq property ns))
      by (intros ->; apply Hnotin; left).
    rewrite (proj2 (String.eqb_neq "call" ns))
      by (intros <-; apply Hnotin; right; left).
    reflexivity. }
  apply has_found. exists hook. split; [exact Hin|].
  unfold literal_match. rewrite Hi, Hn, Ha. repeat split.
Qed.

(** X23. Reading a property of the proxy under a symbol key throws,
    whatever is registered. On a store that the operations have built,
    reading a property under a string key throws exactly when the
    namespace is not registered. *)
Theorem proxy_get_throws_iff_unregistered {World : Type} (S : Store World)
    (hs : list Handle) (ns : string) (w : World) :
  reachable S hs ->
  (forall description,
     qyvrProxyHandler_get S ns (KSymbol description) w = Throw TypeError)
  /\ (forall property,
        (exists e, qyvrProxyHandler_get S ns (KString property) w = Throw e)
        <-> Qyvents S !! ns = None)
  /\ (Qyvents S !! ns = None ->
      forall key, qyvrProxyHandler_get S ns key w = Throw TypeError).
Proof.
  intros Hr. destruct (reachable_wf S hs Hr) as [[Hids _] _].
  split; [reflexivity|].
  unfold qyvrProxyHandler_get, Qyvents_get, Qyvents_ref. simpl.
  destruct (Qyvents S !! ns) as [l|] eqn:Hl; simpl.
  - destruct (Hids ns l Hl) as (ev & -> & _). split.
    + intros property. split; [|discriminate]. intros [e He].
      destruct (Qyvent_has ev _); discriminate.
    + discriminate.
  - split.
    + intros property. split; [reflexivity | eauto].
    + intros _ [property|description]; reflexivity.
Qed.

(** X24. The two versions of the dispatcher agree: for every store,
    pattern and arguments [Qyvr.fire] of the class-based version runs
    and settles as [fire] of Qyvr.mjs does, and [Qyvent.filter] selects
    the hooks that the filter inside [fire] selects, in the same
    order. *)
Theorem fire_versions_agree {World : Type} (S : Store World)
    (event : Qyvent World) (pattern : string) (args : list value) (w : World) :
  Qyvr_fire S pattern args w = fire S pattern args w
  /\ Qyvent_filter event pattern
     = fire_hooks event (parse pattern).1.1 (parse pattern).1.2 (parse pattern).2.
Proof. split; [apply Qyvr_fire_fire | apply Qyvent_filter_fire_hooks]. Qed.


(** ** Scenarios of the further properties *)

Section MoreWitnesses.

Import Scenario.

Lemma reachable_S_ns : reachable S_ns [].
Proof. exact (reach_addEvent store_empty [] "ns" None None reach_empty). Qed.

Lemma reachable_S_a : reachable S_a [mkHandle 0 1].
Proof.
  apply (reach_addHook S_ns [] "ns.a.call" (cb_return (VStr "a")) None S_a
           (mkHandle 0 1) reachable_S_ns).
  reflexivity.
Qed.

Lemma reachable_S_ab : reachable S_ab [remove_b; mkHandle 0 1].
Proof.
  apply (reach_addHook S_a [mkHandle 0 1] "ns.b.call" (cb_return (VStr "b")) None
           S_ab remove_b reachable_S_a).
  reflexivity.
Qed.

Lemma reachable_S_abc : reachable S_abc [mkHandle 0 3; remove_b; mkHandle 0 1].
Proof.
  apply (reach_addHook S_ab _ "ns.c.call" (cb_return (VStr "c")) None
           S_abc (mkHandle 0 3) reachable_S_ab).
  reflexivity.
Qed.

Lemma reachable_S_xp :
  reachable S_xp [mkHandle 0 3; mkHandle 0 2; mkHandle 0 1].
Proof.
  assert (reachable S_x [mkHandle 0 1]) as Hx.
  { apply (reach_addHook S_ns [] "ns.x.call" (cb_return (VStr "x")) None S_x
             (mkHandle 0 1) reachable_S_ns).
    reflexivity. }
  apply (reach_addHook (hooked S_x "ns.p.get" cb_empty None) _
           "ns.p.set" cb_empty None S_xp (mkHandle 0 3)); [|reflexivity].
  apply (reach_addHook S_x _ "ns.p.get" cb_empty None _ (mkHandle 0 2) Hx).
  reflexivity.
Qed.

Lemma reachable_S_phases :
  reachable S_phases [mkHandle 0 3; mkHandle 0 2; mkHandle 0 1].
Proof.
  apply (reach_addHook S_post_pre _ "sys.login.call" (cb_return (VStr "main")) None
           S_phases (mkHandle 0 3)); [|reflexivity].
  apply (reach_addHook S_post _ "sys.login.call" (cb_return (VStr "pre"))
           (Some "pre") S_post_pre (mkHandle 0 2)); [|reflexivity].
  apply (reach_addHook S_sys [] "sys.login.call" (cb_return (VStr "post"))
           (Some "post") S_post (mkHandle 0 1)); [|reflexivity].
  exact (reach_addEvent store_empty [] "sys" _ _ reach_empty).
Qed.

Lemma reachable_stores_are_well_formed_witness :
  reachable S_abc [mkHandle 0 3; remove_b; mkHandle 0 1] /\ store_wf S_abc.
Proof.
  split; [exact reachable_S_abc|].
  exact (proj1 (reachable_stores_are_well_formed S_abc _ reachable_S_abc)).
Defined.

Lemma addHook_succeeds_iff_registered_witness :
  reachable S_ns [] /\ (parse "ns.a.call").1.1 = Some "ns"
  /\ (is_Some (Qyvents S_ns !! "ns")
      <-> exists S' hd,
            addHook S_ns "ns.a.call" (cb_return (VStr "a")) None = Ok (S', hd)).
Proof.
  split; [exact reachable_S_ns|]. split; [reflexivity|].
  exact (addHook_succeeds_iff_registered S_ns [] "ns.a.call"
           (cb_return (VStr "a")) None "ns" reachable_S_ns eq_refl).
Defined.

Lemma addHook_adds_one_hook_witness :
  addHook S_a "ns.b.call" (cb_return (VStr "b")) None = Ok (S_ab, remove_b)
  /\ Qyvents S_ab = Qyvents S_a.
Proof.
  split; [reflexivity|].
  exact (proj1 (addHook_adds_one_hook S_a S_ab "ns.b.call"
                  (cb_return (VStr "b")) None remove_b eq_refl)).
Defined.

Lemma addHook_keeps_order_of_hooks_witness :
  reachable S_a [mkHandle 0 1]
  /\ addHook S_a "ns.b.call" (cb_return (VStr "b")) None = Ok (S_ab, remove_b)
  /\ objs S_a !! 0%nat = Some (event_of S_a)
  /\ exists ev', objs S_ab !! 0%nat = Some ev'
                 /\ ev_hooks (event_of S_a) `sublist_of` ev_hooks ev'.
Proof.
  split; [exact reachable_S_a|]. split; [reflexivity|]. split; [reflexivity|].
  exact (addHook_keeps_order_of_hooks S_a S_ab _ "ns.b.call"
           (cb_return (VStr "b")) None remove_b 0%nat (event_of S_a)
           reachable_S_a eq_refl eq_refl).
Defined.

Lemma addHook_then_selected_witness :
  addHook S_a "ns.b.call" (cb_return (VStr "b")) None = Ok (S_ab, remove_b)
  /\ Qyvr_has S_ab "ns.b.call" = Some true.
Proof.
  split; [reflexivity|].
  destruct (addHook_then_selected S_a S_ab "ns.b.call" (cb_return (VStr "b"))
              None remove_b eq_refl) as (event & hook & _ & _ & _ & _ & _ & H).
  exact H.
Defined.

Lemma Qyvent_has_after_hook_witness :
  Js.split "ns.a.call" = ev_id (event_of S_ns) :: ["a"; "call"]
  /\ NoDup (ev_id (event_of S_ns) :: ["a"; "call"])
  /\ Qyvent_has
       (Qyvent_hook 1 "ns.a.call" (cb_return (VStr "a")) None (event_of S_ns)).1
       "ns.a.call" = true.
Proof.
  assert (NoDup (ev_id (event_of S_ns) :: ["a"; "call"])) as Hnd
    by (apply (bool_decide_unpack _); vm_compute; exact I).
  split; [reflexivity|]. split; [exact Hnd|].
  exact (Qyvent_has_after_hook (event_of S_ns) 1 "ns.a.call"
           (cb_return (VStr "a")) None ["a"; "call"] eq_refl Hnd).
Defined.

Lemma fire_calls_in_phase_order_witness :
  reachable S_phases [mkHandle 0 3; mkHandle 0 2; mkHandle 0 1]
  /\ Qyvents_get S_phases (parse "sys.login.call").1.1 = Some (event_of S_phases)
  /\ StronglySorted (hook_before (ev_phases (event_of S_phases)))
       (invoked (fire S_phases "sys.login.call" [] tt)).
Proof.
  split; [exact reachable_S_phases|]. split; [reflexivity|].
  exact (proj1 (fire_calls_in_phase_order S_phases _ "sys.login.call" [] tt
                  (event_of S_phases) reachable_S_phases eq_refl)).
Defined.

Lemma fire_without_selected_hook_witness :
  Qyvents_get S_a (parse "ns.b.call").1.1 = Some (event_of S_a)
  /\ fire_hooks (event_of S_a) (Some "ns") ["b"] (Some "call") = []
  /\ fire S_a "ns.b.call" [] tt = mkRun (Resolved VUndef) [] tt.
Proof.
  split; [reflexivity|]. split; [reflexivity|].
  exact (proj1 (fire_without_selected_hook S_a "ns.b.call" [] tt (event_of S_a)
                  eq_refl eq_refl)).
Defined.

Lemma fire_resolves_with_last_result_witness :
  Qyvents_get S_phases (parse "sys.login.call").1.1 = Some (event_of S_phases)
  /\ Forall (ctx_preserving []) [nth_hook S_phases 0; nth_hook S_phases 1]
  /\ settled (fire S_phases "sys.login.call" [] tt) = Resolved (VStr "post")
  /\ invoked (fire S_phases "sys.login.call" [] tt)
     = [nth_hook S_phases 0; nth_hook S_phases 1] ++ [nth_hook S_phases 2].
Proof.
  assert (Forall (ctx_preserving []) [nth_hook S_phases 0; nth_hook S_phases 1])
    as Hpre.
  { repeat constructor; intros w c; eexists _, _; reflexivity. }
  split; [reflexivity|]. split; [exact Hpre|].
  apply (fire_resolves_with_last_result S_phases "sys.login.call" [] tt
           (event_of S_phases) [nth_hook S_phases 0; nth_hook S_phases 1]
           (nth_hook S_phases 2) (VStr "post")).
  - reflexivity.
  - reflexivity.
  - reflexivity.
  - exact Hpre.
  - intros w c. eexists. reflexivity.
  - discriminate.
Defined.

Lemma fire_with_stopped_shared_context_witness :
  ev_ctx (event_of S_halt) !! "stopped" = Some (VBool true)
  /\ fire_hooks (event_of S_halt) (Some "ns") ["a"] (Some "call")
     = [nth_hook S_halt 0; nth_hook S_halt 1]
  /\ fire S_halt "ns.a.call" [] tt
     = mkRun (Resolved (VStr "one")) [nth_hook S_halt 0] tt.
Proof.
  split; [reflexivity|]. split; [reflexivity|].
  apply (fire_with_stopped_shared_context S_halt "ns.a.call" [] tt tt
           (event_of S_halt) (nth_hook S_halt 0) [nth_hook S_halt 1]
           (VBool true) (VStr "one") (ctx_new (ev_ctx (event_of S_halt)) []));
    reflexivity.
Defined.

Lemma unhook_of_absent_hook_removes_last_witness :
  Forall (fun h => h_ref h <> 7%nat) (ev_hooks (event_of S_abc))
  /\ map h_name (ev_hooks (Qyvent_unhook 7 (event_of S_abc))) = [["a"]; ["b"]].
Proof.
  assert (Forall (fun h => h_ref h <> 7%nat) (ev_hooks (event_of S_abc))) as H
    by (repeat constructor; discriminate).
  split; [exact H|].
  rewrite (proj1 (unhook_of_absent_hook_removes_last (event_of S_abc) 7 H)).
  reflexivity.
Defined.

Lemma unhook_leaves_hooks_before_witness :
  reachable S_abc [mkHandle 0 3; remove_b; mkHandle 0 1]
  /\ objs S_abc !! 0%nat = Some (event_of S_abc)
  /\ ev_hooks (event_of S_abc)
     = [nth_hook S_abc 0] ++ nth_hook S_abc 1 :: [nth_hook S_abc 2]
  /\ exists ev',
       objs (unhook S_abc (mkHandle 0 (h_ref (nth_hook S_abc 1)))) !! 0%nat
       = Some ev'
       /\ ev_hooks ev' = [nth_hook S_abc 0]
       /\ ev_id ev' = ev_id (event_of S_abc)
       /\ ev_phases ev' = ev_phases (event_of S_abc).
Proof.
  split; [exact reachable_S_abc|]. split; [reflexivity|]. split; [reflexivity|].
  exact (proj2 (proj2 (unhook_leaves_hooks_before S_abc _ 0%nat (event_of S_abc)
                         [nth_hook S_abc 0] [nth_hook S_abc 2] (nth_hook S_abc 1)
                         reachable_S_abc eq_refl eq_refl))).
Defined.

Lemma unhook_property_removes_one_more_witness :
  reachable S_xp [mkHandle 0 3; mkHandle 0 2; mkHandle 0 1]
  /\ ev_hooks (event_of S_xp)
     = [nth_hook S_xp 0] ++ nth_hook S_xp 1 :: [] ++ nth_hook S_xp 2 :: []
  /\ exists ev',
       objs (unhook_property S_xp
               (mkHandle 0 (h_ref (nth_hook S_xp 1)),
                mkHandle 0 (h_ref (nth_hook S_xp 2)))) !! 0%nat = Some ev'
       /\ ev_hooks ev' = removelast [nth_hook S_xp 0].
Proof.
  split; [exact reachable_S_xp|]. split; [reflexivity|].
  exact (unhook_property_removes_one_more S_xp _ 0%nat (event_of S_xp)
           [nth_hook S_xp 0] [] [] (nth_hook S_xp 1) (nth_hook S_xp 2)
           reachable_S_xp eq_refl eq_refl).
Defined.

Lemma addEvent_replaces_namespace_witness :
  reachable S_abc [mkHandle 0 3; remove_b; mkHandle 0 1]
  /\ Qyvents_get (addEvent S_abc "ns" None None) (Some "ns")
     = Some (Qyvent_new "ns" None None).
Proof.
  split; [exact reachable_S_abc|].
  exact (proj1 (addEvent_replaces_namespace S_abc _ "ns" None None
                  reachable_S_abc)).
Defined.

Lemma stale_closure_acts_on_old_namespace_witness :
  reachable S_abc [mkHandle 0 3; remove_b; mkHandle 0 1]
  /\ remove_b ∈ [mkHandle 0 3; remove_b; mkHandle 0 1]
  /\ later S_anew [mkHandle 0 3; remove_b; mkHandle 0 1] S_renewed
       [mkHandle 4 5; mkHandle 0 3; remove_b; mkHandle 0 1]
  /\ (map h_name <$> (ev_hooks <$> Qyvents_get S_renewed (Some "ns")))
     = Some [["z"]]
  /\ Qyvents_get (unhook S_renewed remove_b) (Some "ns")
     = Qyvents_get S_renewed (Some "ns")
  /\ (map h_name <$> (ev_hooks <$> objs (unhook S_renewed remove_b) !! 0%nat))
     = Some [["a"]].
Proof.
  assert (remove_b ∈ [mkHandle 0 3; remove_b; mkHandle 0 1]) as Hin
    by (right; left).
  assert (later S_anew [mkHandle 0 3; remove_b; mkHandle 0 1] S_renewed
            [mkHandle 4 5; mkHandle 0 3; remove_b; mkHandle 0 1]) as Hlater.
  { apply (later_hook S_anew _ S_anew _ (Some "ns") "ns.z.call"
             (cb_return (VStr "z")) None S_renewed (mkHandle 4 5));
      [apply later_refl | reflexivity]. }
  split; [exact reachable_S_abc|]. split; [exact Hin|]. split; [exact Hlater|].
  split; [reflexivity|].
  destruct (stale_closure_acts_on_old_namespace S_abc S_renewed _ _ remove_b
              "ns" None None reachable_S_abc Hin Hlater)
    as (_ & _ & _ & Hget & _).
  split; [exact Hget | reflexivity].
Defined.

Lemma delEvent_unregisters_witness :
  (parse "ns.a.call").1.1 = Some "ns"
  /\ fire (delEvent S_a "ns") "ns.a.call" [] tt = mkRun (Rejected TypeError) [] tt.
Proof.
  split; [reflexivity|].
  exact (proj1 (delEvent_unregisters S_a "ns" "ns.a.call" [] tt
                  (cb_return VUndef) None eq_refl)).
Defined.

Lemma property_of_new_namespace_witness :
  (parse "nodes.node1.status").1.1 = Some "nodes"
  /\ exists S2 remove,
       propertyHook S_nodes "nodes.node1.status" (Some cb_get) (Some cb_set)
       = Ok (S2, remove)
       /\ world (fire S2 "nodes.node1.status.set" [VStr "offline"] (VStr "online"))
          = VStr "offline"
       /\ settled (fire S2 "nodes.node1.status.get" [] (VStr "offline"))
          = Resolved (VStr "offline").
Proof.
  split; [reflexivity|].
  destruct (property_of_new_namespace store_empty "nodes" (Some ["main*"]) None
              "nodes.node1.status" (Some cb_get) (Some cb_set) eq_refl)
    as (S2 & remove & g & s & Hp & Hg & Hs & Hfire).
  exists S2, remove. split; [exact Hp|].
  destruct (Hfire [VStr "offline"] (VStr "online")) as [_ Hset].
  destruct (Hfire [] (VStr "offline")) as [Hget _].
  change ("nodes.node1.status" +:+ ".set") with "nodes.node1.status.set" in Hset.
  change ("nodes.node1.status" +:+ ".get") with "nodes.node1.status.get" in Hget.
  rewrite Hset, Hget. simpl. rewrite Hg, Hs. split; reflexivity.
Defined.

Lemma has_then_fire_selects_witness :
  reachable S_a [mkHandle 0 1]
  /\ (parse "ns.a.call").1.2 = ["a"]
  /\ Qyvr_has S_a "ns.a.call" = Some true
  /\ exists event hook,
       Qyvents_get S_a (parse "ns.a.call").1.1 = Some event
       /\ hook ∈ fire_hooks event (parse "ns.a.call").1.1 (parse "ns.a.call").1.2
                   (parse "ns.a.call").2
       /\ hook ∈ Qyvent_filter event "ns.a.call".
Proof.
  split; [exact reachable_S_a|]. split; [reflexivity|]. split; [reflexivity|].
  apply (has_then_fire_selects S_a _ "ns.a.call" reachable_S_a).
  - discriminate.
  - intros H. apply list_elem_of_singleton in H. discriminate H.
  - reflexivity.
Defined.

Lemma proxy_get_gives_method_witness :
  reachable S_a [mkHandle 0 1]
  /\ Qyvents_get S_a (Some "ns") = Some (event_of S_a)
  /\ NoDup ["ns"; "a"; "call"]
  /\ qyvrProxyHandler_get S_a "ns" (KString "a") tt = Ok (Method "ns.a.call").
Proof.
  assert (NoDup ["ns"; "a"; "call"]) as Hnd
    by (apply (bool_decide_unpack _); vm_compute; exact I).
  split; [exact reachable_S_a|]. split; [reflexivity|]. split; [exact Hnd|].
  apply (proxy_get_gives_method S_a _ "ns" "a" tt (event_of S_a) (nth_hook S_a 0)
           reachable_S_a); try reflexivity.
  - exact Hnd.
  - left.
Defined.

Lemma proxy_get_throws_iff_unregistered_witness :
  reachable S_a [mkHandle 0 1]
  /\ qyvrProxyHandler_get S_a "ns" (KSymbol "Symbol.toPrimitive") tt
     = Throw TypeError
  /\ qyvrProxyHandler_get S_a "nodes" (KString "status") tt = Throw TypeError
  /\ ~ (exists e, qyvrProxyHandler_get S_a "ns" (KString "status") tt = Throw e).
Proof.
  split; [exact reachable_S_a|].
  destruct (proxy_get_throws_iff_unregistered S_a _ "ns" tt reachable_S_a)
    as (Hsym & Hstr & _).
  destruct (proxy_get_throws_iff_unregistered S_a _ "nodes" tt reachable_S_a)
    as (_ & _ & Hmissing).
  split; [apply Hsym|]. split; [now apply Hmissing|].
  intros H. apply Hstr in H. discriminate H.
Defined.

End MoreWitnesses.
